(** * WasmEdge host WASI resource layer: [include/host/wasi/inode.h]

    A shallow embedding of the resource holders ([FdHolder], [DirHolder],
    [TimerHolder]), of [INode] and of [Poller] as they are declared in the
    header, together with the properties the design document states about
    them.

    C++ objects live in a store indexed by their address, and a method
    receives the addresses of [this] and of the objects it is given by
    reference: [a = std::move(a)] really passes the same address twice. *)

From Stdlib Require Import ZArith Lia.
From stdpp Require Import base option list gmap fin_maps.

Local Open Scope Z_scope.

Global Instance byte_eq_dec : EqDecision Byte.byte := Byte.byte_eq_dec.

(** ** Objects, members and the store *)

(** The address of a complete object. *)
Abbreviation loc := positive.

(** A (possibly nested) data member or base-class subobject of type [A]
    inside an object of type [T]. *)
Record member (T A : Type) := Member { get : T → A; put : A → T → T }.
Arguments Member {T A} _ _.
Arguments get {T A} _ _.
Arguments put {T A} _ _ _.

(** The object itself, and a member of a member. *)
Definition whole {T} : member T T := Member (λ o, o) (λ v _, v).
Definition sub {T A B} (f : member T A) (g : member A B) : member T B :=
  Member (λ o, get g (get f o)) (λ v o, put f (put g v (get f o)) o).
Infix "⋅" := sub (at level 29, left associativity).

Class Lawful {T A} (f : member T A) := {
  get_put : ∀ v o, get f (put f v o) = v;
  put_get : ∀ o, put f (get f o) o = o;
  put_put : ∀ v v' o, put f v (put f v' o) = put f v o
}.

(** The calls into the operating system that release a resource, and the
    calls by which a timer's resources come into being: a call that hands
    out the descriptor [fd], and the creation of the timer [id]. *)
Inductive syscall :=
  | SysClose (fd : Z)
  | SysClosedir (dir : Z)
  | SysTimerDelete (id : Z)
  | SysOpen (fd : Z)
  | SysTimerCreate (id : Z).

(** The live objects of one class and the calls into the operating system
    made so far. *)
Record world (T : Type) := World { objs : gmap loc T; trace : list syscall }.
Arguments World {T} _ _.
Arguments objs {T} _.
Arguments trace {T} _.

Section Store.
Context {T A : Type}.

(** Read and write the member [f] of the object at [p]. A reference
    always designates a live object; at an address that holds none the
    model reads nothing and writes nothing. *)
Definition load (f : member T A) (p : loc) (m : gmap loc T) : option A :=
  get f <$> m !! p.
Definition store (f : member T A) (p : loc) (v : A) (m : gmap loc T)
  : gmap loc T := alter (put f v) p m.

(** [std::exchange(obj, v)]: the old value, and [obj] set to [v]. *)
Definition std_exchange (f : member T A) (p : loc) (v : A) (m : gmap loc T)
  : option (A * gmap loc T) :=
  old ← load f p m; Some (old, store f p v m).

(** [std::swap(a, b)] on two lvalues of a value type:
    [tmp = a; a = b; b = tmp], each access through the store. *)
Definition std_swap (f : member T A) (a b : loc) (m : gmap loc T)
  : gmap loc T :=
  match load f a m with
  | Some tmp =>
      match load f b m with
      | Some vb => store f b tmp (store f a vb m)
      | None => m
      end
  | None => m
  end.

Definition upd (g : gmap loc T → gmap loc T) (w : world T) : world T :=
  World (g (objs w)) (trace w).
Definition emit (e : syscall) (w : world T) : world T :=
  World (objs w) (trace w ++ [e]).
End Store.

(** Storage for a new object, holding its default member initialisers,
    and the end of an object's storage. *)
Definition allocate {T} (p : loc) (init : T) (w : world T) : world T :=
  upd (insert p init) w.
Definition deallocate {T} (p : loc) (w : world T) : world T :=
  upd (delete p) w.

(** An address no live object has: where a temporary is placed. *)
Definition fresh_loc {T} (w : world T) : loc := fresh (dom (objs w)).

(** ** FdHolder *)

Record FdHolder := mkFdHolder { Fd : Z }.
Definition FdHolder_default : FdHolder := {| Fd := -1 |}.
Definition fld_Fd : member FdHolder Z := Member Fd (λ v _, {| Fd := v |}).

Section FdHolderMethods.
Context {T : Type} (base : member T FdHolder).

(** [constexpr bool ok() const noexcept { return Fd >= 0; }] *)
Definition FdHolder_ok (this : loc) (w : world T) : bool :=
  match load (base ⋅ fld_Fd) this (objs w) with
  | Some fd => bool_decide (fd >= 0)
  | None => false
  end.

(** Modelled from the spec: [void FdHolder::reset() noexcept] is declared
    in the header and defined elsewhere. "reset() releases and nulls,
    idempotently (safe on an already-empty holder)"; "each concrete
    holder's release path invokes the correct platform teardown for its
    kind (close descriptor ...)". *)
Definition FdHolder_reset (this : loc) (w : world T) : world T :=
  match load (base ⋅ fld_Fd) this (objs w) with
  | Some fd =>
      let w1 := if bool_decide (fd >= 0) then emit (SysClose fd) w else w in
      upd (store (base ⋅ fld_Fd) this (-1)) w1
  | None => w
  end.

(** [FdHolder(FdHolder &&RHS) noexcept : Fd(std::exchange(RHS.Fd, -1)) {}] *)
Definition FdHolder_move_ctor (this rhs : loc) (w : world T) : world T :=
  match std_exchange (base ⋅ fld_Fd) rhs (-1) (objs w) with
  | Some (old, m) => World (store (base ⋅ fld_Fd) this old m) (trace w)
  | None => w
  end.

(** [FdHolder &operator=(FdHolder &&RHS) noexcept
      { using std::swap; swap(Fd, RHS.Fd); return *this; }] *)
Definition FdHolder_move_assign (this rhs : loc) (w : world T) : world T :=
  upd (std_swap (base ⋅ fld_Fd) this rhs) w.

(** [~FdHolder() noexcept { reset(); }] *)
Definition FdHolder_dtor (this : loc) (w : world T) : world T :=
  FdHolder_reset this w.

(** [int release() noexcept { return std::exchange(Fd, -1); }] *)
Definition FdHolder_release (this : loc) (w : world T)
  : option (Z * world T) :=
  '(old, m) ← std_exchange (base ⋅ fld_Fd) this (-1) (objs w);
  Some (old, World m (trace w)).

(** [void emplace(int NewFd) noexcept { reset(); Fd = NewFd; }] *)
Definition FdHolder_emplace (this : loc) (NewFd : Z) (w : world T)
  : world T :=
  let w1 := FdHolder_reset this w in
  upd (store (base ⋅ fld_Fd) this NewFd) w1.
End FdHolderMethods.

(** ** DirHolder *)

(** [DIR *] is an address, [nullptr] is [0]; [Cookie] is a [uint64_t]. *)
Record DirHolder := mkDirHolder {
  Dir : Z;
  Cookie : Z;
  Buffer : list Byte.byte
}.
Definition DirHolder_default : DirHolder :=
  {| Dir := 0; Cookie := 0; Buffer := [] |}.
Definition fld_Dir : member DirHolder Z :=
  Member Dir (λ v o, {| Dir := v; Cookie := Cookie o; Buffer := Buffer o |}).
Definition fld_Cookie : member DirHolder Z :=
  Member Cookie (λ v o, {| Dir := Dir o; Cookie := v; Buffer := Buffer o |}).
Definition fld_Buffer : member DirHolder (list Byte.byte) :=
  Member Buffer (λ v o, {| Dir := Dir o; Cookie := Cookie o; Buffer := v |}).

Section DirHolderMethods.
Context {T : Type} (self : member T DirHolder).

(** [constexpr bool ok() const noexcept { return Dir != nullptr; }] *)
Definition DirHolder_ok (this : loc) (w : world T) : bool :=
  match load (self ⋅ fld_Dir) this (objs w) with
  | Some d => bool_decide (d ≠ 0)
  | None => false
  end.

(** Modelled from the spec: [void DirHolder::reset() noexcept] is declared
    in the header and defined elsewhere. "reset() releases and nulls,
    idempotently"; the teardown of a directory stream is "close stream". *)
Definition DirHolder_reset (this : loc) (w : world T) : world T :=
  match load (self ⋅ fld_Dir) this (objs w) with
  | Some d =>
      let w1 := if bool_decide (d ≠ 0) then emit (SysClosedir d) w else w in
      upd (store (self ⋅ fld_Dir) this 0) w1
  | None => w
  end.

(** [DirHolder(DirHolder &&RHS) noexcept
      { using std::swap; swap(Dir, RHS.Dir); swap(Cookie, RHS.Cookie); }]
    The members are first set from their default initialisers
    ([Dir = nullptr], [Cookie = 0], an empty [Buffer]). *)
Definition DirHolder_move_ctor (this rhs : loc) (w : world T) : world T :=
  let w0 := upd (store self this DirHolder_default) w in
  let w1 := upd (std_swap (self ⋅ fld_Dir) this rhs) w0 in
  upd (std_swap (self ⋅ fld_Cookie) this rhs) w1.

(** [DirHolder &operator=(DirHolder &&RHS) noexcept
      { using std::swap; swap(Dir, RHS.Dir); swap(Cookie, RHS.Cookie);
        return *this; }] *)
Definition DirHolder_move_assign (this rhs : loc) (w : world T) : world T :=
  let w1 := upd (std_swap (self ⋅ fld_Dir) this rhs) w in
  upd (std_swap (self ⋅ fld_Cookie) this rhs) w1.

(** [~DirHolder() noexcept { reset(); }] *)
Definition DirHolder_dtor (this : loc) (w : world T) : world T :=
  DirHolder_reset this w.

(** [void emplace(DIR *NewDir) noexcept { reset(); Dir = NewDir; }] *)
Definition DirHolder_emplace (this : loc) (NewDir : Z) (w : world T)
  : world T :=
  let w1 := DirHolder_reset this w in
  upd (store (self ⋅ fld_Dir) this NewDir) w1.
End DirHolderMethods.

(** A [DirHolder] with the stream and cookie of [from] and the buffer of
    [to]: what exchanging [Dir] and [Cookie], and not [Buffer], leaves. *)
Definition DirHolder_take (from to : DirHolder) : DirHolder :=
  {| Dir := Dir from; Cookie := Cookie from; Buffer := Buffer to |}.

(** ** TimerHolder *)

(** [timer_t] is an opaque handle; [Id] is a [std::optional<timer_t>]. *)
Record TimerHolder := mkTimerHolder { Id : option Z }.
Definition TimerHolder_default : TimerHolder := {| Id := None |}.
Definition fld_Id : member TimerHolder (option Z) :=
  Member Id (λ v _, {| Id := v |}).

Section TimerHolderMethods.
Context {T : Type} (self : member T TimerHolder).

(** Modelled from the spec: [void TimerHolder::reset() noexcept] is
    declared in the header and defined elsewhere. "reset() releases and
    nulls, idempotently"; a timer is optional, "absence means no active
    timer", and its teardown is "disarm timer". *)
Definition TimerHolder_reset (this : loc) (w : world T) : world T :=
  match load (self ⋅ fld_Id) this (objs w) with
  | Some oid =>
      let w1 := match oid with
                | Some id => emit (SysTimerDelete id) w
                | None => w
                end in
      upd (store (self ⋅ fld_Id) this None) w1
  | None => w
  end.

(** [TimerHolder(TimerHolder &&RHS) noexcept
      { using std::swap; swap(Id, RHS.Id); }]
    [Id] is first default-constructed, disengaged. *)
Definition TimerHolder_move_ctor (this rhs : loc) (w : world T) : world T :=
  let w0 := upd (store self this TimerHolder_default) w in
  upd (std_swap (self ⋅ fld_Id) this rhs) w0.

(** [TimerHolder &operator=(TimerHolder &&RHS) noexcept
      { using std::swap; swap(Id, RHS.Id); return *this; }] *)
Definition TimerHolder_move_assign (this rhs : loc) (w : world T)
  : world T :=
  upd (std_swap (self ⋅ fld_Id) this rhs) w.

(** [~TimerHolder() noexcept { reset(); }] *)
Definition TimerHolder_dtor (this : loc) (w : world T) : world T :=
  TimerHolder_reset this w.

(** [void emplace(timer_t NewId) noexcept { reset(); Id = NewId; }] *)
Definition TimerHolder_emplace (this : loc) (NewId : Z) (w : world T)
  : world T :=
  let w1 := TimerHolder_reset this w in
  upd (store (self ⋅ fld_Id) this (Some NewId)) w1.
End TimerHolderMethods.

(** ** Complete holder objects

    A holder that is an object of its own: constructed into fresh storage,
    destroyed with its storage, and exchanged by the generic [std::swap],
    which the header does not overload for the holders:
    [T tmp(std::move(a)); a = std::move(b); b = std::move(tmp);] and the
    temporary is destroyed at the end of the call. *)
Section CompleteObjects.
Context {T : Type} (init : T)
        (move_ctor move_assign : loc → loc → world T → world T)
        (dtor : loc → world T → world T).

Definition construct_from (this rhs : loc) (w : world T) : world T :=
  move_ctor this rhs (allocate this init w).

Definition destroy (this : loc) (w : world T) : world T :=
  deallocate this (dtor this w).

Definition generic_swap (a b : loc) (w : world T) : world T :=
  let tmp := fresh_loc w in
  let w1 := construct_from tmp a w in
  let w2 := move_assign a b w1 in
  let w3 := move_assign b tmp w2 in
  destroy tmp w3.
End CompleteObjects.

Definition FdHolder_new := construct_from FdHolder_default (FdHolder_move_ctor whole).
Definition FdHolder_delete := destroy (FdHolder_dtor whole).
Definition FdHolder_swap :=
  generic_swap FdHolder_default (FdHolder_move_ctor whole)
               (FdHolder_move_assign whole) (FdHolder_dtor whole).

Definition DirHolder_new := construct_from DirHolder_default (DirHolder_move_ctor whole).
Definition DirHolder_delete := destroy (DirHolder_dtor whole).
Definition DirHolder_swap :=
  generic_swap DirHolder_default (DirHolder_move_ctor whole)
               (DirHolder_move_assign whole) (DirHolder_dtor whole).

Definition TimerHolder_new := construct_from TimerHolder_default (TimerHolder_move_ctor whole).
Definition TimerHolder_delete := destroy (TimerHolder_dtor whole).
Definition TimerHolder_swap :=
  generic_swap TimerHolder_default (TimerHolder_move_ctor whole)
               (TimerHolder_move_assign whole) (TimerHolder_dtor whole).

(** ** Ownership

    The objects of a store that hold the handle [x]. *)
Definition owners {T H} `{EqDecision H} (handle : T → H) (x : H)
    (m : gmap loc T) : gset loc :=
  dom (filter (λ po, handle po.2 = x) m).

(** ** Portable results

    Modelled from the spec: the header includes [host/wasi/error.h] for
    [WasiExpect] and the error codes and does not declare them itself.
    "Portable result: tagged union of (typed success value) or (one
    code from a fixed error enumeration)", the enumeration "covering at
    least: access-denied, already-exists, bad-descriptor, busy,
    invalid-argument, io-failure, is-a-directory, not-a-directory,
    not-empty, no-space, not-supported, too-big, would-block, and
    not-capable"; "does not exist" and out-of-memory are named by the
    testable properties and by resource creation. *)
Inductive wasi_errno :=
  | ERRNO_ACCES | ERRNO_EXIST | ERRNO_BADF | ERRNO_BUSY | ERRNO_INVAL
  | ERRNO_IO | ERRNO_ISDIR | ERRNO_NOTDIR | ERRNO_NOTEMPTY | ERRNO_NOSPC
  | ERRNO_NOTSUP | ERRNO_2BIG | ERRNO_AGAIN | ERRNO_NOTCAPABLE
  | ERRNO_NOENT | ERRNO_NOMEM.

Inductive WasiExpect (A : Type) :=
  | Expected (a : A)
  | Unexpected (e : wasi_errno).
Arguments Expected {A} _.
Arguments Unexpected {A} _.

(** ** INode *)

(** [struct stat] of [<sys/stat.h>], with the fields the introspection
    verbs read. *)
Record stat := mkStat {
  st_ino : Z;
  st_mode : Z;
  st_uid : Z;
  st_gid : Z;
  st_size : Z
}.

(** [class INode : public FdHolder], with its private members
    [mutable std::optional<struct stat> Stat] and [DirHolder Dir]. *)
Record INode := mkINode {
  INode_FdHolder : FdHolder;
  Stat : option stat;
  INode_Dir : DirHolder
}.
Definition INode_default : INode :=
  {| INode_FdHolder := FdHolder_default; Stat := None;
     INode_Dir := DirHolder_default |}.
Definition base_FdHolder : member INode FdHolder :=
  Member INode_FdHolder
    (λ v o, {| INode_FdHolder := v; Stat := Stat o; INode_Dir := INode_Dir o |}).
Definition fld_Stat : member INode (option stat) :=
  Member Stat
    (λ v o, {| INode_FdHolder := INode_FdHolder o; Stat := v;
               INode_Dir := INode_Dir o |}).
Definition fld_INode_Dir : member INode DirHolder :=
  Member INode_Dir
    (λ v o, {| INode_FdHolder := INode_FdHolder o; Stat := Stat o;
               INode_Dir := v |}).

(** Move construction and move assignment of a [std::optional] of a
    trivially copyable type: the target becomes a copy of the source, and
    the source is left as it is, engaged if it was engaged. *)
Definition optional_move {T A} (f : member T (option A)) (this rhs : loc)
    (m : gmap loc T) : gmap loc T :=
  match load f rhs m with
  | Some v => store f this v m
  | None => m
  end.

(** [INode(INode &&RHS) noexcept = default;]
    The base and the members are move-constructed in declaration order. *)
Definition INode_move_ctor (this rhs : loc) (w : world INode) : world INode :=
  let w1 := FdHolder_move_ctor base_FdHolder this rhs w in
  let w2 := upd (optional_move fld_Stat this rhs) w1 in
  DirHolder_move_ctor fld_INode_Dir this rhs w2.

(** [INode &operator=(INode &&RHS) noexcept = default;]
    The base and the members are move-assigned in declaration order. *)
Definition INode_move_assign (this rhs : loc) (w : world INode)
  : world INode :=
  let w1 := FdHolder_move_assign base_FdHolder this rhs w in
  let w2 := upd (optional_move fld_Stat this rhs) w1 in
  DirHolder_move_assign fld_INode_Dir this rhs w2.

(** The implicit destructor: the members are destroyed in reverse
    declaration order, then the base. *)
Definition INode_dtor (this : loc) (w : world INode) : world INode :=
  FdHolder_dtor base_FdHolder this (DirHolder_dtor fld_INode_Dir this w).

Definition INode_new := construct_from INode_default INode_move_ctor.
Definition INode_delete := destroy INode_dtor.

(** [ok()], inherited from [FdHolder]. *)
Definition INode_ok := FdHolder_ok base_FdHolder.

(** The release calls the destruction of an [INode] makes. *)
Definition INode_releases (o : INode) : list syscall :=
  (if bool_decide (Dir (INode_Dir o) ≠ 0)
   then [SysClosedir (Dir (INode_Dir o))] else [])
  ++ (if bool_decide (Fd (INode_FdHolder o) >= 0)
      then [SysClose (Fd (INode_FdHolder o))] else []).

Global Instance syscall_eq_dec : EqDecision syscall.
Proof. solve_decision. Defined.

(** How often a trace closes the descriptor [fd]. *)
Definition closes (fd : Z) (tr : list syscall) : nat :=
  length (filter (λ e, e = SysClose fd) tr).

(** ** Introspection *)

Section Introspection.
(** [fstat] on the host: the metadata behind a descriptor, or an error. *)
Context (os_fstat : Z → WasiExpect stat).

(** Modelled from the spec: [INode::updateStat] is declared in the header
    and defined elsewhere. It refreshes the metadata cache from the
    descriptor. *)
Definition INode_updateStat (this : loc) (w : world INode)
  : WasiExpect unit * world INode :=
  match load (base_FdHolder ⋅ fld_Fd) this (objs w) with
  | Some fd =>
      match os_fstat fd with
      | Expected st => (Expected tt, upd (store fld_Stat this (Some st)) w)
      | Unexpected e => (Unexpected e, w)
      end
  | None => (Unexpected ERRNO_BADF, w)
  end.

(** Modelled from the spec: [INode::filesize] is declared in the header and
    defined elsewhere. "Introspection: file type, directory/symlink
    predicates, file size, browse(traverse)-permission check - all backed
    by the lazily-refreshed metadata cache"; "every public accessor forces
    a refresh if the cache is absent". *)
Definition INode_filesize (this : loc) (w : world INode)
  : WasiExpect Z * world INode :=
  match load fld_Stat this (objs w) with
  | Some (Some st) => (Expected (st_size st), w)
  | Some None =>
      match INode_updateStat this w with
      | (Expected _, w') =>
          match load fld_Stat this (objs w') with
          | Some (Some st) => (Expected (st_size st), w')
          | _ => (Unexpected ERRNO_BADF, w')
          end
      | (Unexpected e, w') => (Unexpected e, w')
      end
  | None => (Unexpected ERRNO_BADF, w)
  end.
End Introspection.

(** ** The verbs of an INode

    The header declares the verbs; their bodies are in the platform sources.
    Each verb returns a [WasiExpect<void>] and hands its results back
    through the parameters the header marks [@param[out]]: here a verb
    returns the result together with the new value of every such
    parameter. [__wasi_filesize_t] and [__wasi_size_t] are unsigned. *)

(** An open regular file on the host, behind a descriptor: its bytes and
    the current position of the descriptor. *)
Record open_file := mkOpenFile { of_data : list Byte.byte; of_pos : N }.

(** [Span<Span<uint8_t>>]: the caller's byte ranges, in order. Reading
    fills them front to back with the bytes transferred. *)
Fixpoint scatter (data : list Byte.byte) (IOVs : list (list Byte.byte))
  : list (list Byte.byte) :=
  match IOVs with
  | [] => []
  | iov :: rest =>
      let got := take (length iov) data in
      (got ++ drop (length got) iov) :: scatter (drop (length iov) data) rest
  end.

(** The bytes of a file after [data] is written at offset [off]; a gap
    beyond the end of the file reads as zero bytes. *)
Definition write_at (off : nat) (data old : list Byte.byte)
  : list Byte.byte :=
  take off old ++ replicate (off - length old) Byte.x00
    ++ data ++ drop (off + length data) old.

Section PositionedIO.
(** The host may transfer less than it is asked for: of a request for [n]
    bytes it transfers [granted n], and never more than [n]. *)
Context (granted : nat → nat).

Definition transferred (n : nat) : nat := Nat.min n (granted n).

(** Modelled from the spec: [INode::fdTell] is declared in the header and
    defined elsewhere. "tell returns current offset only"; the header:
    "Return the current offset of a file descriptor. Note: This is similar
    to lseek(fd, 0, SEEK_CUR) in POSIX." *)
Definition INode_fdTell (this : loc) (Size : N) (w : world INode)
    (k : gmap Z open_file) : WasiExpect unit * N :=
  match load (base_FdHolder ⋅ fld_Fd) this (objs w) with
  | Some fd =>
      match k !! fd with
      | Some f => (Expected tt, of_pos f)
      | None => (Unexpected ERRNO_BADF, Size)
      end
  | None => (Unexpected ERRNO_BADF, Size)
  end.

(** Modelled from the spec: [INode::fdPread] is declared in the header and
    defined elsewhere. "positioned read/write at an explicit offset that
    never mutates the current position. All I/O accepts a list of
    scatter/gather byte ranges and reports the exact aggregate transferred
    - short transfers are legal and reported as-is"; the header: "Read from
    a file descriptor, without using and updating the file descriptor's
    offset. Note: This is similar to preadv in POSIX." *)
Definition INode_fdPread (this : loc) (IOVs : list (list Byte.byte))
    (Offset : N) (NRead : N) (w : world INode) (k : gmap Z open_file)
  : WasiExpect unit * list (list Byte.byte) * N * gmap Z open_file :=
  match load (base_FdHolder ⋅ fld_Fd) this (objs w) with
  | Some fd =>
      match k !! fd with
      | Some f =>
          let avail := drop (N.to_nat Offset) (of_data f) in
          let data := take (transferred (length (concat IOVs))) avail in
          (Expected tt, scatter data IOVs, N.of_nat (length data), k)
      | None => (Unexpected ERRNO_BADF, IOVs, NRead, k)
      end
  | None => (Unexpected ERRNO_BADF, IOVs, NRead, k)
  end.

(** Modelled from the spec: [INode::fdPwrite] is declared in the header
    and defined elsewhere; the spec sentence is the one quoted for
    [fdPread]; the header: "Write to a file descriptor, without using and
    updating the file descriptor's offset. Note: This is similar to pwritev
    in POSIX." *)
Definition INode_fdPwrite (this : loc) (IOVs : list (list Byte.byte))
    (Offset : N) (NWritten : N) (w : world INode) (k : gmap Z open_file)
  : WasiExpect unit * N * gmap Z open_file :=
  match load (base_FdHolder ⋅ fld_Fd) this (objs w) with
  | Some fd =>
      match k !! fd with
      | Some f =>
          let data := take (transferred (length (concat IOVs))) (concat IOVs) in
          let f' := {| of_data := write_at (N.to_nat Offset) data (of_data f);
                       of_pos := of_pos f |} in
          (Expected tt, N.of_nat (length data), <[fd := f']> k)
      | None => (Unexpected ERRNO_BADF, NWritten, k)
      end
  | None => (Unexpected ERRNO_BADF, NWritten, k)
  end.
End PositionedIO.

(** The symbolic links below a directory descriptor: the target of the
    link at a path, or the error the host gives for that path. *)
Abbreviation symlinks := (Z → list Byte.byte → WasiExpect (list Byte.byte)).

(** Modelled from the spec: [INode::pathReadlink] is declared in the header
    and defined elsewhere. "read symlink target (silently truncates into an
    undersized buffer, reporting bytes actually written)". The signature is
    the header's:
    [WasiExpect<void> pathReadlink(std::string Path, Span<char> Buffer) const],
    "@param[out] Buffer The buffer to which to write the contents of the
    symbolic link. @return Nothing or WASI error." The verb returns the
    result and the bytes of [Buffer]; it has no other output. *)
Definition INode_pathReadlink (links : symlinks) (this : loc)
    (Path : list Byte.byte) (Buffer : list Byte.byte) (w : world INode)
  : WasiExpect unit * list Byte.byte :=
  match load (base_FdHolder ⋅ fld_Fd) this (objs w) with
  | Some fd =>
      match links fd Path with
      | Expected target =>
          let written := take (length Buffer) target in
          (Expected tt, written ++ drop (length written) Buffer)
      | Unexpected e => (Unexpected e, Buffer)
      end
  | None => (Unexpected ERRNO_BADF, Buffer)
  end.

(** The number of bytes [pathReadlink] writes into a buffer of [cap] bytes
    for a link with the given target. *)
Definition readlink_written (cap : nat) (target : list Byte.byte) : nat :=
  length (take cap target).

(** ** Directory enumeration *)

(** An entry of a directory on the host, and an open directory stream (a
    [DIR]): the entries in stream order and the index of the next entry to
    be read. The cursor that follows the entry at index [i] is [i + 1], and
    the cursor [0] is the start of the directory. *)
Record dirent := mkDirent { d_ino : Z; d_type : Z; d_name : list Byte.byte }.
Record dirstream := mkDirstream { ds_entries : list dirent; ds_pos : nat }.

(** What one call of [fdReaddir] gives back: the result, the bytes of the
    caller's buffer, [Size], and the inode and the host's streams after the
    call. *)
Record readdir_result := mkReaddirResult {
  rd_res : WasiExpect unit;
  rd_Buffer : list Byte.byte;
  rd_Size : N;
  rd_world : world INode;
  rd_streams : gmap Z dirstream
}.

Section Readdir.
(** The fixed-size entry header of the output layout, "(next-cursor, inode
    number, name length, file type)"; its byte layout is that of
    [__wasi_dirent_t], which the header uses and does not declare. *)
Context (header : Z → Z → Z → Z → list Byte.byte).

(** One entry of the output: the header, "immediately followed by exactly
    name length raw bytes of the (non-terminated) entry name". *)
Definition dirent_record (next : nat) (e : dirent) : list Byte.byte :=
  header (Z.of_nat next) (d_ino e) (Z.of_nat (length (d_name e))) (d_type e)
    ++ d_name e.

(** The entries from the stream position [pos] on, in the output layout. *)
Fixpoint dirent_records (pos : nat) (es : list dirent) : list Byte.byte :=
  match es with
  | [] => []
  | e :: es' => dirent_record (S pos) e ++ dirent_records (S pos) es'
  end.

(** The loop of [fdReaddir]: while the caller's buffer has room, read the
    next entry of the stream, lay it out in the holder's [Buffer] and copy
    as much of it as fits. It gives the bytes stored, the position the
    stream has reached and the last contents of the holder's [Buffer]. *)
Fixpoint fill_entries (cap pos : nat) (es : list dirent)
    (scratch : list Byte.byte) : list Byte.byte * nat * list Byte.byte :=
  match es with
  | [] => ([], pos, scratch)
  | e :: es' =>
      match cap with
      | O => ([], pos, scratch)
      | S _ =>
          let rec := dirent_record (S pos) e in
          let '(out, pos', scratch') :=
            fill_entries (cap - length rec) (S pos) es' rec in
          (take cap rec ++ out, pos', scratch')
      end
  end.

(** Modelled from the spec: [INode::fdReaddir] is declared in the header
    and defined elsewhere. "fill a caller buffer with as many
    whole-or-truncated fixed-header-plus-variable-name directory entries as
    fit, starting at a given cursor; end-of-directory is signaled by
    returned size < buffer capacity; re-invocation with a previously-used
    cursor must replay deterministically without loss or duplication -
    requires tracking which cursor the underlying stream position
    corresponds to and re-seeking when it does not match." The holder's
    [Cookie] is that tracked cursor: the stream is re-positioned only when
    the cursor asked for differs from it. An inode that has no directory
    stream is not a directory. *)
Definition INode_fdReaddir (this : loc) (Buf : list Byte.byte) (Ck : N)
    (Size : N) (w : world INode) (k : gmap Z dirstream) : readdir_result :=
  match load fld_INode_Dir this (objs w) with
  | Some D =>
      match k !! Dir D with
      | Some s =>
          let pos := if bool_decide (Z.of_N Ck = Cookie D)
                     then ds_pos s else N.to_nat Ck in
          let '(out, pos', scratch) :=
            fill_entries (length Buf) pos (drop pos (ds_entries s))
                         (Buffer D) in
          let D' := {| Dir := Dir D; Cookie := Z.of_nat pos';
                       Buffer := scratch |} in
          {| rd_res := Expected tt;
             rd_Buffer := out ++ drop (length out) Buf;
             rd_Size := N.of_nat (length out);
             rd_world := upd (store fld_INode_Dir this D') w;
             rd_streams := <[Dir D := {| ds_entries := ds_entries s;
                                         ds_pos := pos' |}]> k |}
      | None =>
          {| rd_res := Unexpected ERRNO_NOTDIR; rd_Buffer := Buf;
             rd_Size := Size; rd_world := w; rd_streams := k |}
      end
  | None =>
      {| rd_res := Unexpected ERRNO_BADF; rd_Buffer := Buf; rd_Size := Size;
         rd_world := w; rd_streams := k |}
  end.

(** What replaying a directory from the cursor [Ck] into the buffer [Buf]
    gives: the entries that follow the cursor, each once and in stream
    order, cut at the capacity of the buffer; and their size. *)
Definition replay (entries : list dirent) (Buf : list Byte.byte) (Ck : N)
  : list Byte.byte * N :=
  let out := take (length Buf)
               (dirent_records (N.to_nat Ck)
                  (drop (N.to_nat Ck) entries)) in
  (out ++ drop (length out) Buf, N.of_nat (length out)).

(** A series of enumeration calls on one inode, each with its own buffer
    and cursor. *)
Definition fdReaddir_calls (this : loc) (calls : list (list Byte.byte * N))
    (w : world INode) (k : gmap Z dirstream)
  : world INode * gmap Z dirstream :=
  foldl (λ st call,
           let r := INode_fdReaddir this call.1 call.2 0%N st.1 st.2 in
           (rd_world r, rd_streams r))
        (w, k) calls.

(** The holder's cursor is the one the stream position corresponds to. *)
Definition cursor_tracked (this : loc) (d : Z) (entries : list dirent)
    (w : world INode) (k : gmap Z dirstream) : Prop :=
  ∃ D s, load fld_INode_Dir this (objs w) = Some D ∧ Dir D = d ∧
         k !! d = Some s ∧ ds_entries s = entries ∧
         Cookie D = Z.of_nat (ds_pos s).
End Readdir.

(** ** Poller *)

(** [struct Timer : public FdHolder], nested in [Poller]. Where the C
    library is older than glibc 2.8 it has the further members
    [FdHolder Notify] and [TimerHolder TimerId]; elsewhere these two stay
    empty. *)
Record Timer := mkTimer {
  Timer_FdHolder : FdHolder;
  Notify : FdHolder;
  TimerId : TimerHolder
}.
Definition Timer_default : Timer :=
  {| Timer_FdHolder := FdHolder_default; Notify := FdHolder_default;
     TimerId := TimerHolder_default |}.
Definition base_Timer : member Timer FdHolder :=
  Member Timer_FdHolder
    (λ v o, {| Timer_FdHolder := v; Notify := Notify o;
               TimerId := TimerId o |}).
Definition fld_Notify : member Timer FdHolder :=
  Member Notify
    (λ v o, {| Timer_FdHolder := Timer_FdHolder o; Notify := v;
               TimerId := TimerId o |}).
Definition fld_TimerId : member Timer TimerHolder :=
  Member TimerId
    (λ v o, {| Timer_FdHolder := Timer_FdHolder o; Notify := Notify o;
               TimerId := v |}).

(** The implicit destructor of [Timer]: [TimerId], then [Notify], then the
    [FdHolder] base. *)
Definition Timer_dtor (this : loc) (w : world Timer) : world Timer :=
  FdHolder_dtor base_Timer this
    (FdHolder_dtor fld_Notify this (TimerHolder_dtor fld_TimerId this w)).

(** The release calls the destruction of a [Timer] makes. *)
Definition Timer_releases (o : Timer) : list syscall :=
  (match Id (TimerId o) with Some id => [SysTimerDelete id] | None => [] end)
  ++ (if bool_decide (Fd (Notify o) >= 0)
      then [SysClose (Fd (Notify o))] else [])
  ++ (if bool_decide (Fd (Timer_FdHolder o) >= 0)
      then [SysClose (Fd (Timer_FdHolder o))] else []).

(** The operating-system resources a trace brings into being and the ones
    it releases. *)
Inductive resource :=
  | ResFd (fd : Z)
  | ResDir (dir : Z)
  | ResTimer (id : Z).

Definition acquired (e : syscall) : option resource :=
  match e with
  | SysOpen fd => Some (ResFd fd)
  | SysTimerCreate id => Some (ResTimer id)
  | _ => None
  end.

Definition released (e : syscall) : option resource :=
  match e with
  | SysClose fd => Some (ResFd fd)
  | SysClosedir dir => Some (ResDir dir)
  | SysTimerDelete id => Some (ResTimer id)
  | _ => None
  end.

(** A registered interest: "clock(clock-id, timeout, precision, flags,
    user-data)", "read(inode, user-data) / write(inode, user-data)". *)
Inductive subscription :=
  | SubClock (Clock Timeout Precision Flags UserData : Z)
  | SubRead (fd UserData : Z)
  | SubWrite (fd UserData : Z).

(** The arguments of one call of the callback:
    "callback(user-data, error-code, event-type, result-size, flags)";
    no error code stands for success. *)
Record completion := mkCompletion {
  c_userdata : Z;
  c_error : option wasi_errno;
  c_type : Z;
  c_size : Z;
  c_flags : Z
}.

(** What the host hands out when it is asked for a timer: the descriptor
    of the timer, and on the fallback path the notification channel and
    the timer id; [-1] and [None] where it hands out nothing. *)
Record timer_handles := mkTimerHandles {
  th_fd : Z;
  th_notify : Z;
  th_id : option Z
}.

Definition acquisitions (h : timer_handles) : list syscall :=
  (if bool_decide (th_fd h >= 0) then [SysOpen (th_fd h)] else [])
  ++ (if bool_decide (th_notify h >= 0) then [SysOpen (th_notify h)] else [])
  ++ (match th_id h with Some id => [SysTimerCreate id] | None => [] end).

(** The timer that holds the handles [h]. *)
Definition Timer_of_handles (h : timer_handles) : Timer :=
  {| Timer_FdHolder := {| Fd := th_fd h |}; Notify := {| Fd := th_notify h |};
     TimerId := {| Id := th_id h |} |}.

Section PollerWait.
(** The host. Asked for its [n]-th timer, it succeeds or fails, and either
    way says which resources it has handed out; asked to wait on the
    registered interests, it says which of them completed. *)
Context (os_timer : nat → Z → Z → Z → Z → WasiExpect unit * timer_handles)
        (os_wait : list subscription → list completion).

(** Modelled from the spec: [Poller::Timer::create] is declared in the
    header and defined elsewhere. "a timer resource is created and added as
    just another waitable"; "a timer is paired with a dedicated
    notification channel". The handles go into the holders of the timer by
    [emplace]. *)
Definition Timer_create (n : nat) (this : loc)
    (Clock Timeout Precision Flags : Z) (w : world Timer)
  : WasiExpect unit * world Timer :=
  let '(res, h) := os_timer n Clock Timeout Precision Flags in
  let w1 := World (objs w) (trace w ++ acquisitions h) in
  let w2 := FdHolder_emplace base_Timer this (th_fd h) w1 in
  let w3 := FdHolder_emplace fld_Notify this (th_notify h) w2 in
  let w4 := match th_id h with
            | Some id => TimerHolder_emplace fld_TimerId this id w3
            | None => w3
            end in
  (res, w4).

(** The timers of one wait, one for each clock subscription in turn, each
    constructed in place at the end of [Timers]; the first failure ends the
    series. The result comes with the timers constructed, the failed one
    included. *)
Fixpoint create_timers (n : nat) (subs : list subscription) (w : world Timer)
  : WasiExpect unit * list loc * world Timer :=
  match subs with
  | [] => (Expected tt, [], w)
  | SubClock Clock Timeout Precision Flags _ :: rest =>
      let this := fresh_loc w in
      let w0 := allocate this Timer_default w in
      match Timer_create n this Clock Timeout Precision Flags w0 with
      | (Expected _, w1) =>
          let '(res, made, w2) := create_timers (S n) rest w1 in
          (res, this :: made, w2)
      | (Unexpected e, w1) => (Unexpected e, [this], w1)
      end
  | _ :: rest => create_timers n rest w
  end.

(** The end of [Timers]: every element is destroyed. *)
Definition release_timers (timers : list loc) (w : world Timer)
  : world Timer :=
  foldl (λ w t, destroy Timer_dtor t w) w timers.

(** Modelled from the spec: [Poller::wait] is declared in the header and
    defined elsewhere. "performs exactly one blocking multiplex call across
    all registered interests, then invokes callback(...) exactly once per
    subscription that became ready, expired, or errored"; "Every timer
    resource created during this call is released when wait returns, on
    both the success and the failure path"; "failure to create a timer for
    one clock subscription aborts the whole wait and surfaces that error,
    after first tearing down any timers already created in that same
    call." The function gives the result, the calls of the callback in
    order, and the world when it returns. *)
Definition Poller_wait (subs : list subscription) (w : world Timer)
  : WasiExpect unit * list completion * world Timer :=
  match create_timers 0 subs w with
  | (Expected _, timers, w1) =>
      (Expected tt, os_wait subs, release_timers timers w1)
  | (Unexpected e, timers, w1) =>
      (Unexpected e, [], release_timers timers w1)
  end.

(** The error of the first clock subscription for which the host cannot
    create a timer, counting the host's timers from [n]. *)
Fixpoint first_failure (n : nat) (subs : list subscription)
  : option wasi_errno :=
  match subs with
  | [] => None
  | SubClock Clock Timeout Precision Flags _ :: rest =>
      match (os_timer n Clock Timeout Precision Flags).1 with
      | Unexpected e => Some e
      | Expected _ => first_failure (S n) rest
      end
  | _ :: rest => first_failure n rest
  end.
End PollerWait.

(** ** Sample stores *)

(** Two descriptor holders: the one at [1] holds descriptor 5, the one at
    [2] holds descriptor 3. *)
Definition two_fds : world FdHolder :=
  World (<[1%positive := {| Fd := 5 |}]>
           (<[2%positive := {| Fd := 3 |}]> ∅)) [].

(** Two directory holders with pending bytes in their buffers. *)
Definition two_dirs : world DirHolder :=
  World (<[1%positive := {| Dir := 4096; Cookie := 7; Buffer := [Byte.x01] |}]>
           (<[2%positive := {| Dir := 8192; Cookie := 9; Buffer := [Byte.x02; Byte.x03] |}]> ∅))
        [].

(** Two timer holders, both engaged. *)
Definition two_timers : world TimerHolder :=
  World (<[1%positive := {| Id := Some 11 |}]>
           (<[2%positive := {| Id := Some 12 |}]> ∅)) [].

(** Two open inodes: a directory on descriptor 5 whose stream has been
    opened, and a file on descriptor 3 whose metadata has been cached. *)
Definition two_inodes : world INode :=
  World (<[1%positive := {| INode_FdHolder := {| Fd := 5 |}; Stat := None;
                            INode_Dir := {| Dir := 4096; Cookie := 0;
                                            Buffer := [] |} |}]>
           (<[2%positive := {| INode_FdHolder := {| Fd := 3 |};
                               Stat := Some {| st_ino := 77; st_mode := 33188;
                                               st_uid := 0; st_gid := 0;
                                               st_size := 120 |};
                               INode_Dir := DirHolder_default |}]> ∅))
        [].

(** The host behind the sample inodes: descriptor 3 is a file of five bytes
    with its position at 2, and below the directory on descriptor 5 the
    path [l] is a symbolic link to [abc]. *)
Definition sample_files : gmap Z open_file :=
  {[ 3 := {| of_data := [Byte.x01; Byte.x02; Byte.x03; Byte.x04; Byte.x05];
             of_pos := 2%N |} ]}.

Definition sample_links : symlinks :=
  λ fd Path,
    if bool_decide (fd = 5 ∧ Path = [Byte.x6c])
    then Expected [Byte.x61; Byte.x62; Byte.x63]
    else Unexpected ERRNO_NOENT.

(** The directory behind the stream of the sample inode at [1]: three
    entries, none read yet; and a header layout of four bytes. *)
Definition sample_entries : list dirent :=
  [ {| d_ino := 11; d_type := 4; d_name := [Byte.x2e] |};
    {| d_ino := 12; d_type := 3; d_name := [Byte.x61; Byte.x62] |};
    {| d_ino := 13; d_type := 7; d_name := [Byte.x6c] |} ].

Definition sample_streams : gmap Z dirstream :=
  {[ 4096 := {| ds_entries := sample_entries; ds_pos := 0 |} ]}.

(** Two earlier enumeration calls: a whole listing from the start into
    twenty bytes, then three bytes from the cursor 2. *)
Definition sample_calls : list (list Byte.byte * N) :=
  [(replicate 20 Byte.x00, 0%N); (replicate 3 Byte.x00, 2%N)].

Definition sample_header : Z → Z → Z → Z → list Byte.byte :=
  λ next ino namlen type,
    (λ z, default Byte.x00 (Byte.of_N (Z.to_N (z mod 256))))
      <$> [next; ino; namlen; type].

(** A host that creates its first timer (descriptor 7, channel 8, timer
    21) and fails on the second one for want of memory, after it has
    already handed out the channel 9; and that reports no completion. *)
Definition sample_os_timer
  : nat → Z → Z → Z → Z → WasiExpect unit * timer_handles :=
  λ n _ _ _ _,
    match n with
    | O => (Expected tt, {| th_fd := 7; th_notify := 8; th_id := Some 21 |})
    | S _ => (Unexpected ERRNO_NOMEM,
              {| th_fd := -1; th_notify := 9; th_id := None |})
    end.

Definition sample_os_wait : list subscription → list completion := λ _, [].

(** ** Further members of the header *)

(** [explicit constexpr FdHolder(int Fd) noexcept : Fd(Fd) {}], into fresh
    storage. *)
Definition FdHolder_from_fd (this : loc) (fd : Z) (w : world FdHolder)
  : world FdHolder :=
  upd (store fld_Fd this fd) (allocate this FdHolder_default w).

(** [FdHolder b(a.release());]: the argument is evaluated, then [b] is
    constructed from it. *)
Definition FdHolder_from_release (this a : loc) (w : world FdHolder)
  : world FdHolder :=
  match FdHolder_release whole a w with
  | Some (fd, w1) => FdHolder_from_fd this fd w1
  | None => w
  end.

(** A move of a holder: [this = std::move(rhs)] on two existing holders,
    or a new holder move-constructed from [rhs]. *)
Inductive move_op :=
  | MoveAssign (this rhs : loc)
  | MoveConstruct (rhs : loc).

(** What a program can do to descriptor holders without a release call: a
    move, or [this.release()], whose result goes to the caller. *)
Inductive fd_op :=
  | FdMove (op : move_op)
  | FdRelease (this : loc).

Definition FdHolder_move (w : world FdHolder) (op : move_op)
  : world FdHolder :=
  match op with
  | MoveAssign this rhs => FdHolder_move_assign whole this rhs w
  | MoveConstruct rhs => FdHolder_new (fresh_loc w) rhs w
  end.

Definition FdHolder_step (w : world FdHolder) (op : fd_op) : world FdHolder :=
  match op with
  | FdMove op => FdHolder_move w op
  | FdRelease this =>
      match FdHolder_release whole this w with
      | Some (_, w') => w'
      | None => w
      end
  end.

Definition DirHolder_move (w : world DirHolder) (op : move_op)
  : world DirHolder :=
  match op with
  | MoveAssign this rhs => DirHolder_move_assign whole this rhs w
  | MoveConstruct rhs => DirHolder_new (fresh_loc w) rhs w
  end.

Definition TimerHolder_move (w : world TimerHolder) (op : move_op)
  : world TimerHolder :=
  match op with
  | MoveAssign this rhs => TimerHolder_move_assign whole this rhs w
  | MoveConstruct rhs => TimerHolder_new (fresh_loc w) rhs w
  end.

(** No two objects of a store hold the same valid handle. *)
Definition exclusive {T H} `{EqDecision H} (handle : T → H)
    (valid : H → bool) (m : gmap loc T) : Prop :=
  map_Forall (λ p o1,
    map_Forall (λ q o2,
      handle o1 = handle o2 → valid (handle o1) = true → p = q) m) m.

(** The handles that count: a descriptor [>= 0], a stream other than
    [nullptr], an engaged timer id. *)
Definition valid_fd (fd : Z) : bool := bool_decide (fd >= 0).
Definition valid_dir (d : Z) : bool := bool_decide (d ≠ 0).
Definition valid_id (id : option Z) : bool := bool_decide (id ≠ None).

(** How the directory holders of a store [m'] relate to those of an
    earlier store [m] when only moves lie between them: every holder of
    [m] is still there; a holder has the [Buffer] it had (a new holder an
    empty one); and its stream and cookie are [nullptr] and [0], or the
    stream and cookie that one holder of [m] had together. *)
Definition DirHolder_moved (m m' : gmap loc DirHolder) : Prop :=
  (∀ p, is_Some (m !! p) → is_Some (m' !! p)) ∧
  ∀ p o', m' !! p = Some o' →
    Buffer o' = match m !! p with Some o => Buffer o | None => [] end ∧
    ((Dir o' = 0 ∧ Cookie o' = 0) ∨
     ∃ q o, m !! q = Some o ∧ Dir o' = Dir o ∧ Cookie o' = Cookie o).

(** A move of an inode, and the handles of an inode. *)
Definition INode_move (w : world INode) (op : move_op) : world INode :=
  match op with
  | MoveAssign this rhs => INode_move_assign this rhs w
  | MoveConstruct rhs => INode_new (fresh_loc w) rhs w
  end.

Definition INode_fd (o : INode) : Z := Fd (INode_FdHolder o).
Definition INode_stream (o : INode) : Z := Dir (INode_Dir o).

(** [Timer(Timer &&RHS) noexcept = default;] and
    [Timer &operator=(Timer &&RHS) noexcept = default;]: the base and the
    members in declaration order. *)
Definition Timer_move_ctor (this rhs : loc) (w : world Timer) : world Timer :=
  let w1 := FdHolder_move_ctor base_Timer this rhs w in
  let w2 := FdHolder_move_ctor fld_Notify this rhs w1 in
  TimerHolder_move_ctor fld_TimerId this rhs w2.

Definition Timer_move_assign (this rhs : loc) (w : world Timer)
  : world Timer :=
  let w1 := FdHolder_move_assign base_Timer this rhs w in
  let w2 := FdHolder_move_assign fld_Notify this rhs w1 in
  TimerHolder_move_assign fld_TimerId this rhs w2.

Definition Timer_new := construct_from Timer_default Timer_move_ctor.

(** [class Poller : public FdHolder] with its members
    [std::vector<__wasi_event_t> Events] and [std::vector<Timer> Timers];
    [E] stands for [__wasi_event_t]. *)
Record Poller (E : Type) := mkPoller {
  Poller_FdHolder : FdHolder;
  Events : list E;
  Timers : list Timer
}.
Arguments mkPoller {E} _ _ _.
Arguments Poller_FdHolder {E} _.
Arguments Events {E} _.
Arguments Timers {E} _.

Definition Poller_default {E} : Poller E :=
  {| Poller_FdHolder := FdHolder_default; Events := []; Timers := [] |}.
Definition base_Poller {E} : member (Poller E) FdHolder :=
  Member Poller_FdHolder
    (λ v o, {| Poller_FdHolder := v; Events := Events o;
               Timers := Timers o |}).
Definition fld_Events {E} : member (Poller E) (list E) :=
  Member Events
    (λ v o, {| Poller_FdHolder := Poller_FdHolder o; Events := v;
               Timers := Timers o |}).
Definition fld_Timers {E} : member (Poller E) (list Timer) :=
  Member Timers
    (λ v o, {| Poller_FdHolder := Poller_FdHolder o; Events := Events o;
               Timers := v |}).

(** The move constructor of [std::vector]: the new vector takes the
    elements, and the source is left empty. *)
Definition vector_move_ctor {T A} (f : member T (list A)) (this rhs : loc)
    (m : gmap loc T) : gmap loc T :=
  match load f rhs m with
  | Some v => store f rhs [] (store f this v m)
  | None => m
  end.

(** [Poller(Poller &&RHS) noexcept = default;] *)
Definition Poller_move_ctor {E} (this rhs : loc) (w : world (Poller E))
  : world (Poller E) :=
  let w1 := FdHolder_move_ctor base_Poller this rhs w in
  let w2 := upd (vector_move_ctor fld_Events this rhs) w1 in
  upd (vector_move_ctor fld_Timers this rhs) w2.

Definition Poller_new {E} :=
  construct_from (@Poller_default E) Poller_move_ctor.

(** [ok()] of a timer and of a poller, inherited from [FdHolder]. *)
Definition Timer_ok := FdHolder_ok base_Timer.
Definition Poller_ok {E} := FdHolder_ok (@base_Poller E).

(** Two timers, the first with all three handles, and a poller that owns a
    descriptor, one event and one timer. *)
Definition two_Timers : world Timer :=
  World (<[1%positive := {| Timer_FdHolder := {| Fd := 7 |};
                            Notify := {| Fd := 8 |};
                            TimerId := {| Id := Some 21 |} |}]>
           (<[2%positive := {| Timer_FdHolder := {| Fd := 9 |};
                               Notify := FdHolder_default;
                               TimerId := TimerHolder_default |}]> ∅)) [].

Definition one_Poller : world (Poller Z) :=
  World (<[1%positive := {| Poller_FdHolder := {| Fd := 6 |};
                            Events := [42];
                            Timers := [ {| Timer_FdHolder := {| Fd := 7 |};
                                           Notify := FdHolder_default;
                                           TimerId := TimerHolder_default |} ]
                         |}]> ∅) [].

(** * Properties *)

(** ** The store *)

Global Instance whole_lawful {T} : Lawful (@whole T).
Proof. by split. Qed.

Global Instance sub_lawful {T A B} (f : member T A) (g : member A B) :
  Lawful f → Lawful g → Lawful (f ⋅ g).
Proof.
  intros Hf Hg. split; simpl; intros.
  - by rewrite !get_put.
  - by rewrite !put_get.
  - by rewrite get_put, !put_put.
Qed.

Global Instance fld_Fd_lawful : Lawful fld_Fd.
Proof. split; by try intros []. Qed.
Global Instance fld_Dir_lawful : Lawful fld_Dir.
Proof. split; by try intros []. Qed.
Global Instance fld_Cookie_lawful : Lawful fld_Cookie.
Proof. split; by try intros []. Qed.
Global Instance fld_Buffer_lawful : Lawful fld_Buffer.
Proof. split; by try intros []. Qed.
Global Instance fld_Id_lawful : Lawful fld_Id.
Proof. split; by try intros []. Qed.
Global Instance base_FdHolder_lawful : Lawful base_FdHolder.
Proof. split; by try intros []. Qed.
Global Instance fld_Stat_lawful : Lawful fld_Stat.
Proof. split; by try intros []. Qed.
Global Instance fld_INode_Dir_lawful : Lawful fld_INode_Dir.
Proof. split; by try intros []. Qed.
Global Instance base_Timer_lawful : Lawful base_Timer.
Proof. split; by try intros []. Qed.
Global Instance fld_Notify_lawful : Lawful fld_Notify.
Proof. split; by try intros []. Qed.
Global Instance fld_TimerId_lawful : Lawful fld_TimerId.
Proof. split; by try intros []. Qed.

Lemma world_eta {T} (w : world T) : World (objs w) (trace w) = w.
Proof. by destruct w. Qed.

Section StoreFacts.
Context {T A : Type} (f : member T A) `{!Lawful f}.
Implicit Types (m : gmap loc T) (p : loc) (o : T).

Lemma load_Some p m o : m !! p = Some o → load f p m = Some (get f o).
Proof. unfold load. by intros ->. Qed.

Lemma load_None p m : m !! p = None → load f p m = None.
Proof. unfold load. by intros ->. Qed.

Lemma store_Some p v m o :
  m !! p = Some o → store f p v m = <[p := put f v o]> m.
Proof.
  intros Hp. apply map_eq. intros q. unfold store.
  destruct (decide (p = q)) as [<-|Hne].
  - by rewrite lookup_alter_eq, lookup_insert_eq, Hp.
  - by rewrite lookup_alter_ne, lookup_insert_ne.
Qed.

Lemma store_None p v m : m !! p = None → store f p v m = m.
Proof.
  intros Hp. apply map_eq. intros q. unfold store.
  destruct (decide (p = q)) as [<-|Hne].
  - by rewrite lookup_alter_eq, Hp.
  - by rewrite lookup_alter_ne.
Qed.

Lemma store_same p m o : m !! p = Some o → store f p (get f o) m = m.
Proof.
  intros Hp. rewrite (store_Some _ _ _ _ Hp), put_get. by apply insert_id.
Qed.

(** Swapping an lvalue with itself changes nothing. *)
Lemma std_swap_self p m : std_swap f p p m = m.
Proof.
  unfold std_swap. destruct (m !! p) as [o|] eqn:Hp.
  - rewrite (load_Some _ _ _ Hp), (store_same _ _ _ Hp).
    by apply store_same.
  - by rewrite (load_None _ _ Hp).
Qed.

(** Swapping two distinct lvalues exchanges the member. *)
Lemma std_swap_ne a b m oa ob :
  a ≠ b → m !! a = Some oa → m !! b = Some ob →
  std_swap f a b m
  = <[b := put f (get f oa) ob]> (<[a := put f (get f ob) oa]> m).
Proof.
  intros Hne Ha Hb. unfold std_swap.
  rewrite (load_Some _ _ _ Ha), (load_Some _ _ _ Hb).
  rewrite (store_Some _ _ _ _ Ha).
  apply store_Some. by rewrite lookup_insert_ne.
Qed.
End StoreFacts.

(** ** Who holds a handle *)

Section Owners.
Context {T H : Type} `{EqDecision H} (handle : T → H).

Lemma elem_of_owners x (m : gmap loc T) p :
  p ∈ owners handle x m ↔ ∃ o, m !! p = Some o ∧ handle o = x.
Proof.
  unfold owners. rewrite elem_of_dom. split.
  - intros [o Ho]. exists o. by apply map_lookup_filter_Some in Ho as [? ?].
  - intros (o & Ho & Hx). exists o. by apply map_lookup_filter_Some.
Qed.

(** If the handle [x] sat in [rhs] alone and a step leaves it in [this]
    and not in [rhs], touching no other object, then afterwards it sits
    in [this] alone. *)
Lemma owners_transfer x (m m' : gmap loc T) this rhs ot or :
  (∀ q, q ≠ this → q ≠ rhs → m' !! q = m !! q) →
  m' !! this = Some ot → handle ot = x →
  m' !! rhs = Some or → handle or ≠ x →
  owners handle x m = {[rhs]} →
  owners handle x m' = {[this]}.
Proof.
  intros Hframe Ht Hx Hr Hnx Hown. apply set_eq. intros q.
  rewrite elem_of_owners, elem_of_singleton. split.
  - intros (o & Hq & Ho).
    destruct (decide (q = this)) as [|Hqt]; [done|].
    destruct (decide (q = rhs)) as [->|Hqr]; [congruence|].
    rewrite (Hframe q Hqt Hqr) in Hq.
    assert (q ∈ owners handle x m) as Hin by (apply elem_of_owners; eauto).
    rewrite Hown in Hin. by apply elem_of_singleton in Hin.
  - intros ->. eauto.
Qed.
End Owners.

(** ** The holders' methods, on any object that contains the holder *)

Section FdHolderFacts.
Context {T : Type} (base : member T FdHolder) `{!Lawful base}.
Implicit Types (w : world T) (o : T).

Lemma FdHolder_ok_live this w o :
  objs w !! this = Some o →
  FdHolder_ok base this w = bool_decide (Fd (get base o) >= 0).
Proof. intros Ho. unfold FdHolder_ok. by rewrite (load_Some _ _ _ _ Ho). Qed.

Lemma FdHolder_reset_live this w o :
  objs w !! this = Some o →
  FdHolder_reset base this w
  = World (<[this := put base FdHolder_default o]> (objs w))
          (trace w ++ if bool_decide (Fd (get base o) >= 0)
                      then [SysClose (Fd (get base o))] else []).
Proof.
  intros Ho. unfold FdHolder_reset. rewrite (load_Some _ _ _ _ Ho). simpl.
  case_bool_decide; unfold upd, emit; simpl;
    rewrite (store_Some _ _ _ _ _ Ho); simpl; [done|].
  by rewrite app_nil_r.
Qed.

Lemma FdHolder_emplace_live this NewFd w o :
  objs w !! this = Some o →
  FdHolder_emplace base this NewFd w
  = World (<[this := put base {| Fd := NewFd |} o]> (objs w))
          (trace w ++ if bool_decide (Fd (get base o) >= 0)
                      then [SysClose (Fd (get base o))] else []).
Proof.
  intros Ho. unfold FdHolder_emplace. rewrite (FdHolder_reset_live _ _ _ Ho).
  unfold upd. cbn [objs trace].
  erewrite store_Some by apply lookup_insert_eq.
  rewrite insert_insert_eq. simpl. by rewrite ?get_put, put_put.
Qed.

Lemma FdHolder_move_assign_self this w :
  FdHolder_move_assign base this this w = w.
Proof.
  unfold FdHolder_move_assign, upd. rewrite std_swap_self by apply _.
  apply world_eta.
Qed.

Lemma FdHolder_move_assign_ne this rhs w a b :
  this ≠ rhs → objs w !! this = Some a → objs w !! rhs = Some b →
  FdHolder_move_assign base this rhs w
  = World (<[rhs := put base (get base a) b]>
             (<[this := put base (get base b) a]> (objs w))) (trace w).
Proof.
  intros Hne Ha Hb. unfold FdHolder_move_assign, upd.
  rewrite (std_swap_ne _ _ _ _ _ _ Hne Ha Hb). simpl.
  by destruct (get base a), (get base b).
Qed.

Lemma FdHolder_move_ctor_ne this rhs w a b :
  this ≠ rhs → objs w !! this = Some a → objs w !! rhs = Some b →
  FdHolder_move_ctor base this rhs w
  = World (<[this := put base (get base b) a]>
             (<[rhs := put base FdHolder_default b]> (objs w))) (trace w).
Proof.
  intros Hne Ha Hb. unfold FdHolder_move_ctor, std_exchange.
  rewrite (load_Some _ _ _ _ Hb). simpl.
  rewrite (store_Some _ _ _ _ _ Hb). f_equal.
  erewrite store_Some by (by rewrite lookup_insert_ne). simpl.
  by destruct (get base b).
Qed.
End FdHolderFacts.

Section DirHolderFacts.
Context {T : Type} (self : member T DirHolder) `{!Lawful self}.
Implicit Types (w : world T) (o : T).

Lemma DirHolder_ok_live this w o :
  objs w !! this = Some o →
  DirHolder_ok self this w = bool_decide (Dir (get self o) ≠ 0).
Proof. intros Ho. unfold DirHolder_ok. by rewrite (load_Some _ _ _ _ Ho). Qed.

Lemma DirHolder_reset_live this w o :
  objs w !! this = Some o →
  DirHolder_reset self this w
  = World (<[this := put (self ⋅ fld_Dir) 0 o]> (objs w))
          (trace w ++ if bool_decide (Dir (get self o) ≠ 0)
                      then [SysClosedir (Dir (get self o))] else []).
Proof.
  intros Ho. unfold DirHolder_reset. rewrite (load_Some _ _ _ _ Ho). simpl.
  case_bool_decide; unfold upd, emit; simpl;
    rewrite (store_Some _ _ _ _ _ Ho); simpl; [done|].
  by rewrite app_nil_r.
Qed.

Lemma DirHolder_move_assign_self this w :
  DirHolder_move_assign self this this w = w.
Proof.
  unfold DirHolder_move_assign, upd. simpl.
  rewrite !std_swap_self by apply _. apply world_eta.
Qed.

Lemma DirHolder_move_assign_ne this rhs w a b :
  this ≠ rhs → objs w !! this = Some a → objs w !! rhs = Some b →
  DirHolder_move_assign self this rhs w
  = World (<[rhs := put self (DirHolder_take (get self a) (get self b)) b]>
             (<[this := put self (DirHolder_take (get self b) (get self a)) a]>
                (objs w))) (trace w).
Proof.
  intros Hne Ha Hb. unfold DirHolder_move_assign, upd. cbn [objs trace].
  rewrite (std_swap_ne (self ⋅ fld_Dir) _ _ _ _ _ Hne Ha Hb).
  erewrite (std_swap_ne (self ⋅ fld_Cookie) _ _ _ _ _ Hne).
  2: { rewrite lookup_insert_ne by done. apply lookup_insert_eq. }
  2: { apply lookup_insert_eq. }
  f_equal. apply map_eq. intros q.
  destruct (decide (q = rhs)) as [->|Hqr];
    [|destruct (decide (q = this)) as [->|Hqt]]; simplify_map_eq;
    [| |done]; f_equal; simpl; by rewrite !get_put, !put_put.
Qed.

Lemma DirHolder_move_ctor_ne this rhs w a b :
  this ≠ rhs → objs w !! this = Some a → objs w !! rhs = Some b →
  DirHolder_move_ctor self this rhs w
  = World (<[rhs := put self (DirHolder_take DirHolder_default (get self b)) b]>
             (<[this := put self (DirHolder_take (get self b) DirHolder_default) a]>
                (objs w))) (trace w).
Proof.
  intros Hne Ha Hb.
  set (w0 := upd (store self this DirHolder_default) w).
  assert (objs w0 !! this = Some (put self DirHolder_default a)) as Ha0.
  { unfold w0, upd. simpl. rewrite (store_Some _ _ _ _ _ Ha).
    apply lookup_insert_eq. }
  assert (objs w0 !! rhs = Some b) as Hb0.
  { unfold w0, upd. simpl. rewrite (store_Some _ _ _ _ _ Ha).
    by rewrite lookup_insert_ne. }
  change (DirHolder_move_ctor self this rhs w)
    with (DirHolder_move_assign self this rhs w0).
  rewrite (DirHolder_move_assign_ne this rhs w0 _ _ Hne Ha0 Hb0).
  unfold w0, upd. simpl. rewrite (store_Some _ _ _ _ _ Ha).
  rewrite insert_insert_eq, !get_put, put_put. done.
Qed.
End DirHolderFacts.

Section TimerHolderFacts.
Context {T : Type} (self : member T TimerHolder) `{!Lawful self}.
Implicit Types (w : world T) (o : T).

Lemma TimerHolder_reset_live this w o :
  objs w !! this = Some o →
  TimerHolder_reset self this w
  = World (<[this := put self TimerHolder_default o]> (objs w))
          (trace w ++ match Id (get self o) with
                      | Some id => [SysTimerDelete id]
                      | None => []
                      end).
Proof.
  intros Ho. unfold TimerHolder_reset. rewrite (load_Some _ _ _ _ Ho). simpl.
  destruct (Id (get self o)); unfold upd, emit; simpl;
    rewrite (store_Some _ _ _ _ _ Ho); simpl; [done|].
  by rewrite app_nil_r.
Qed.

Lemma TimerHolder_emplace_live this NewId w o :
  objs w !! this = Some o →
  TimerHolder_emplace self this NewId w
  = World (<[this := put self {| Id := Some NewId |} o]> (objs w))
          (trace w ++ match Id (get self o) with
                      | Some id => [SysTimerDelete id]
                      | None => []
                      end).
Proof.
  intros Ho. unfold TimerHolder_emplace.
  rewrite (TimerHolder_reset_live _ _ _ Ho).
  unfold upd. cbn [objs trace].
  erewrite store_Some by apply lookup_insert_eq.
  rewrite insert_insert_eq. simpl. by rewrite ?get_put, put_put.
Qed.

Lemma TimerHolder_move_assign_self this w :
  TimerHolder_move_assign self this this w = w.
Proof.
  unfold TimerHolder_move_assign, upd. rewrite std_swap_self by apply _.
  apply world_eta.
Qed.

Lemma TimerHolder_move_assign_ne this rhs w a b :
  this ≠ rhs → objs w !! this = Some a → objs w !! rhs = Some b →
  TimerHolder_move_assign self this rhs w
  = World (<[rhs := put self (get self a) b]>
             (<[this := put self (get self b) a]> (objs w))) (trace w).
Proof.
  intros Hne Ha Hb. unfold TimerHolder_move_assign, upd.
  rewrite (std_swap_ne _ _ _ _ _ _ Hne Ha Hb). simpl.
  by destruct (get self a), (get self b).
Qed.

Lemma TimerHolder_move_ctor_ne this rhs w a b :
  this ≠ rhs → objs w !! this = Some a → objs w !! rhs = Some b →
  TimerHolder_move_ctor self this rhs w
  = World (<[rhs := put self TimerHolder_default b]>
             (<[this := put self (get self b) a]> (objs w))) (trace w).
Proof.
  intros Hne Ha Hb.
  set (w0 := upd (store self this TimerHolder_default) w).
  assert (objs w0 !! this = Some (put self TimerHolder_default a)) as Ha0.
  { unfold w0, upd. simpl. rewrite (store_Some _ _ _ _ _ Ha).
    apply lookup_insert_eq. }
  assert (objs w0 !! rhs = Some b) as Hb0.
  { unfold w0, upd. simpl. rewrite (store_Some _ _ _ _ _ Ha).
    by rewrite lookup_insert_ne. }
  change (TimerHolder_move_ctor self this rhs w)
    with (TimerHolder_move_assign self this rhs w0).
  rewrite (TimerHolder_move_assign_ne this rhs w0 _ _ Hne Ha0 Hb0).
  unfold w0, upd. simpl. rewrite (store_Some _ _ _ _ _ Ha).
  rewrite insert_insert_eq, !get_put, put_put. done.
Qed.
End TimerHolderFacts.

(** ** Complete holder objects *)

(** Two stores built from inserts and deletes are compared address by
    address. *)
Ltac store_ext :=
  apply map_eq; intros ?q;
  repeat (rewrite lookup_insert || rewrite lookup_delete);
  repeat case_decide; simplify_eq; try done.

(** A lookup under inserts at addresses known to be equal or distinct. *)
Ltac store_lookup :=
  intros;
  repeat (rewrite lookup_insert_eq || (rewrite lookup_insert_ne by done));
  done.

Lemma fresh_loc_free {T} (w : world T) : objs w !! fresh_loc w = None.
Proof. apply not_elem_of_dom, is_fresh. Qed.

Section Allocate.
Context {T : Type}.

Lemma allocate_this this (init : T) w :
  objs (allocate this init w) !! this = Some init.
Proof. apply lookup_insert_eq. Qed.

Lemma allocate_other this rhs (init b : T) w :
  objs w !! this = None → objs w !! rhs = Some b →
  this ≠ rhs ∧ objs (allocate this init w) !! rhs = Some b.
Proof.
  intros Hthis Hrhs. assert (this ≠ rhs) as Hne by congruence.
  split; [done|]. unfold allocate, upd. simpl. by rewrite lookup_insert_ne.
Qed.
End Allocate.

Lemma FdHolder_new_fresh (w : world FdHolder) this rhs b :
  objs w !! this = None → objs w !! rhs = Some b →
  FdHolder_new this rhs w
  = World (<[this := b]> (<[rhs := FdHolder_default]> (objs w))) (trace w).
Proof.
  intros Hthis Hrhs.
  destruct (allocate_other this rhs FdHolder_default b w Hthis Hrhs)
    as [Hne Hrhs'].
  unfold FdHolder_new, construct_from.
  rewrite (FdHolder_move_ctor_ne whole _ _ _ _ _ Hne
             (allocate_this _ _ _) Hrhs').
  simpl. f_equal. store_ext.
Qed.

Lemma DirHolder_new_fresh (w : world DirHolder) this rhs b :
  objs w !! this = None → objs w !! rhs = Some b →
  DirHolder_new this rhs w
  = World (<[this := DirHolder_take b DirHolder_default]>
             (<[rhs := DirHolder_take DirHolder_default b]> (objs w)))
          (trace w).
Proof.
  intros Hthis Hrhs.
  destruct (allocate_other this rhs DirHolder_default b w Hthis Hrhs)
    as [Hne Hrhs'].
  unfold DirHolder_new, construct_from.
  rewrite (DirHolder_move_ctor_ne whole _ _ _ _ _ Hne
             (allocate_this _ _ _) Hrhs').
  simpl. f_equal. store_ext.
Qed.

Lemma TimerHolder_new_fresh (w : world TimerHolder) this rhs b :
  objs w !! this = None → objs w !! rhs = Some b →
  TimerHolder_new this rhs w
  = World (<[this := b]> (<[rhs := TimerHolder_default]> (objs w))) (trace w).
Proof.
  intros Hthis Hrhs.
  destruct (allocate_other this rhs TimerHolder_default b w Hthis Hrhs)
    as [Hne Hrhs'].
  unfold TimerHolder_new, construct_from.
  rewrite (TimerHolder_move_ctor_ne whole _ _ _ _ _ Hne
             (allocate_this _ _ _) Hrhs').
  simpl. f_equal. store_ext.
Qed.

(** [std::swap(a, a)]: the temporary takes the handle, hands it back and is
    destroyed empty. *)
Lemma FdHolder_swap_self (w : world FdHolder) a o :
  objs w !! a = Some o → FdHolder_swap a a w = w.
Proof.
  intros Ha. pose proof (fresh_loc_free w) as Htmp.
  unfold FdHolder_swap, generic_swap. set (tmp := fresh_loc w) in *.
  assert (a ≠ tmp) as Hne by congruence.
  change (construct_from _ _ tmp a w) with (FdHolder_new tmp a w).
  rewrite (FdHolder_new_fresh _ _ _ _ Htmp Ha).
  rewrite FdHolder_move_assign_self by apply _.
  rewrite (FdHolder_move_assign_ne whole a tmp _ FdHolder_default o Hne)
    by (simpl; by simplify_map_eq).
  unfold destroy, FdHolder_dtor, deallocate, upd.
  rewrite (FdHolder_reset_live whole _ _ FdHolder_default)
    by (simpl; by simplify_map_eq).
  simpl. rewrite app_nil_r. destruct w as [m tr]. simpl in *. f_equal.
  store_ext.
Qed.

Lemma DirHolder_swap_self (w : world DirHolder) a o :
  objs w !! a = Some o → DirHolder_swap a a w = w.
Proof.
  intros Ha. pose proof (fresh_loc_free w) as Htmp.
  unfold DirHolder_swap, generic_swap. set (tmp := fresh_loc w) in *.
  assert (a ≠ tmp) as Hne by congruence.
  change (construct_from _ _ tmp a w) with (DirHolder_new tmp a w).
  rewrite (DirHolder_new_fresh _ _ _ _ Htmp Ha).
  rewrite DirHolder_move_assign_self by apply _.
  rewrite (DirHolder_move_assign_ne whole a tmp _
             (DirHolder_take DirHolder_default o)
             (DirHolder_take o DirHolder_default) Hne)
    by (simpl; by simplify_map_eq).
  unfold destroy, DirHolder_dtor, deallocate, upd.
  erewrite (DirHolder_reset_live whole) by (simpl; by simplify_map_eq).
  simpl. rewrite app_nil_r. destruct w as [m tr]. simpl in *. f_equal.
  store_ext. by destruct o.
Qed.

Lemma TimerHolder_swap_self (w : world TimerHolder) a o :
  objs w !! a = Some o → TimerHolder_swap a a w = w.
Proof.
  intros Ha. pose proof (fresh_loc_free w) as Htmp.
  unfold TimerHolder_swap, generic_swap. set (tmp := fresh_loc w) in *.
  assert (a ≠ tmp) as Hne by congruence.
  change (construct_from _ _ tmp a w) with (TimerHolder_new tmp a w).
  rewrite (TimerHolder_new_fresh _ _ _ _ Htmp Ha).
  rewrite TimerHolder_move_assign_self by apply _.
  rewrite (TimerHolder_move_assign_ne whole a tmp _ TimerHolder_default o Hne)
    by (simpl; by simplify_map_eq).
  unfold destroy, TimerHolder_dtor, deallocate, upd.
  rewrite (TimerHolder_reset_live whole _ _ TimerHolder_default)
    by (simpl; by simplify_map_eq).
  simpl. rewrite app_nil_r. destruct w as [m tr]. simpl in *. f_equal.
  store_ext.
Qed.

(** ** Claims about the holders *)

(** C7. [emplace(new-handle)] releases the resource the holder held, if it
    held one, and then stores the new handle: the store afterwards has the
    new handle in the holder, the trace has grown by exactly the release of
    the old handle when there was one and by nothing on an empty holder,
    and [ok()] is the validity of the new handle. ([TimerHolder] declares
    no [ok()]; its [Id] is engaged with the new timer.) *)
Theorem emplace_releases_then_stores :
  (∀ (w : world FdHolder) this o NewFd,
     objs w !! this = Some o →
     let w' := FdHolder_emplace whole this NewFd w in
     objs w' = <[this := {| Fd := NewFd |}]> (objs w) ∧
     trace w' = trace w ++ (if bool_decide (Fd o >= 0)
                            then [SysClose (Fd o)] else []) ∧
     FdHolder_ok whole this w' = bool_decide (NewFd >= 0)) ∧
  (∀ (w : world DirHolder) this o NewDir,
     objs w !! this = Some o →
     let w' := DirHolder_emplace whole this NewDir w in
     objs w' = <[this := {| Dir := NewDir; Cookie := Cookie o;
                            Buffer := Buffer o |}]> (objs w) ∧
     trace w' = trace w ++ (if bool_decide (Dir o ≠ 0)
                            then [SysClosedir (Dir o)] else []) ∧
     DirHolder_ok whole this w' = bool_decide (NewDir ≠ 0)) ∧
  (∀ (w : world TimerHolder) this o NewId,
     objs w !! this = Some o →
     let w' := TimerHolder_emplace whole this NewId w in
     objs w' = <[this := {| Id := Some NewId |}]> (objs w) ∧
     trace w' = trace w ++ (match Id o with
                            | Some id => [SysTimerDelete id]
                            | None => []
                            end)).
Proof.
  split; [|split].
  - intros w this o NewFd Ho w'. subst w'. unfold FdHolder_emplace.
    rewrite (FdHolder_reset_live whole _ _ _ Ho). unfold FdHolder_ok, upd.
    simpl. erewrite !store_Some by apply lookup_insert_eq.
    rewrite insert_insert_eq. unfold load.
    by rewrite lookup_insert_eq.
  - intros w this o NewDir Ho w'. subst w'. unfold DirHolder_emplace.
    rewrite (DirHolder_reset_live whole _ _ _ Ho). unfold DirHolder_ok, upd.
    simpl. erewrite !store_Some by apply lookup_insert_eq.
    rewrite insert_insert_eq. unfold load.
    by rewrite lookup_insert_eq.
  - intros w this o NewId Ho w'. subst w'. unfold TimerHolder_emplace.
    rewrite (TimerHolder_reset_live whole _ _ _ Ho). unfold upd.
    simpl. erewrite !store_Some by apply lookup_insert_eq.
    by rewrite insert_insert_eq.
Qed.

Lemma emplace_releases_then_stores_witness :
  trace (FdHolder_emplace whole 1 9 two_fds) = [SysClose 5] ∧
  FdHolder_ok whole 1 (FdHolder_emplace whole 1 9 two_fds) = true ∧
  trace (DirHolder_emplace whole 2 0 two_dirs) = [SysClosedir 8192] ∧
  DirHolder_ok whole 2 (DirHolder_emplace whole 2 0 two_dirs) = false ∧
  trace (TimerHolder_emplace whole 1 13 two_timers) = [SysTimerDelete 11].
Proof.
  destruct emplace_releases_then_stores as (Hfd & Hdir & Htimer).
  destruct (Hfd two_fds 1%positive {| Fd := 5 |} 9 eq_refl) as (_ & Ht & Hok).
  destruct (Hdir two_dirs 2%positive
              {| Dir := 8192; Cookie := 9; Buffer := [Byte.x02; Byte.x03] |}
              0 eq_refl) as (_ & Ht' & Hok').
  destruct (Htimer two_timers 1%positive {| Id := Some 11 |} 13 eq_refl)
    as (_ & Ht'').
  repeat split; assumption.
Defined.

(** C8. Move-assigning a holder to itself, and swapping a holder with
    itself, leave the store and the trace as they were: the handle is
    unchanged and nothing is released. *)
Theorem self_move_and_self_swap_are_noops :
  (∀ (w : world FdHolder) a o,
     objs w !! a = Some o →
     FdHolder_move_assign whole a a w = w ∧ FdHolder_swap a a w = w) ∧
  (∀ (w : world DirHolder) a o,
     objs w !! a = Some o →
     DirHolder_move_assign whole a a w = w ∧ DirHolder_swap a a w = w) ∧
  (∀ (w : world TimerHolder) a o,
     objs w !! a = Some o →
     TimerHolder_move_assign whole a a w = w ∧ TimerHolder_swap a a w = w).
Proof.
  split; [|split]; intros w a o Ho; split.
  - apply FdHolder_move_assign_self, _.
  - by apply FdHolder_swap_self with o.
  - apply DirHolder_move_assign_self, _.
  - by apply DirHolder_swap_self with o.
  - apply TimerHolder_move_assign_self, _.
  - by apply TimerHolder_swap_self with o.
Qed.

Lemma self_move_and_self_swap_are_noops_witness :
  (FdHolder_move_assign whole 1 1 two_fds = two_fds ∧
   FdHolder_swap 1 1 two_fds = two_fds) ∧
  (DirHolder_move_assign whole 2 2 two_dirs = two_dirs ∧
   DirHolder_swap 2 2 two_dirs = two_dirs) ∧
  (TimerHolder_move_assign whole 1 1 two_timers = two_timers ∧
   TimerHolder_swap 1 1 two_timers = two_timers).
Proof.
  destruct self_move_and_self_swap_are_noops as (Hfd & Hdir & Htimer).
  split; [|split].
  - apply (Hfd two_fds 1%positive {| Fd := 5 |}). reflexivity.
  - apply (Hdir two_dirs 2%positive
             {| Dir := 8192; Cookie := 9; Buffer := [Byte.x02; Byte.x03] |}).
    reflexivity.
  - apply (Htimer two_timers 1%positive {| Id := Some 11 |}). reflexivity.
Defined.

(** C1, as the design document states it, fails for move assignment: the
    operator exchanges the handles, so a source moved into a target that
    held something holds that something afterwards. Here the targets at [1]
    hold descriptor 5, stream 4096 and timer 11. *)
Lemma move_assign_source_not_empty :
  load fld_Fd 2 (objs (FdHolder_move_assign whole 1 2 two_fds)) = Some 5 ∧
  load fld_Fd 2 (objs (FdHolder_move_assign whole 1 2 two_fds)) ≠ Some (-1) ∧
  load fld_Dir 2 (objs (DirHolder_move_assign whole 1 2 two_dirs)) = Some 4096 ∧
  load fld_Dir 2 (objs (DirHolder_move_assign whole 1 2 two_dirs)) ≠ Some 0 ∧
  load fld_Id 2 (objs (TimerHolder_move_assign whole 1 2 two_timers))
    = Some (Some 11) ∧
  load fld_Id 2 (objs (TimerHolder_move_assign whole 1 2 two_timers))
    ≠ Some None.
Proof. repeat split; (reflexivity || (vm_compute; discriminate)). Qed.

(** C1, amended. Move construction leaves the source in the empty state
    ([Fd == -1], [Dir == nullptr], [Id] disengaged) and the new holder with
    the source's handle. Move assignment into another holder exchanges the
    handles: the target has the source's handle and the source has the
    handle the target had, so the source is empty exactly when the target
    was. Neither releases anything, and a handle that only the source held
    is held by the destination only afterwards. *)
Theorem move_transfers_handle :
  (∀ (w : world FdHolder) this rhs b,
     objs w !! this = None → objs w !! rhs = Some b →
     let w' := FdHolder_new this rhs w in
     objs w' = <[this := b]> (<[rhs := {| Fd := -1 |}]> (objs w)) ∧
     trace w' = trace w ∧
     (Fd b ≠ -1 → owners Fd (Fd b) (objs w) = {[rhs]} →
      owners Fd (Fd b) (objs w') = {[this]})) ∧
  (∀ (w : world FdHolder) this rhs a b,
     this ≠ rhs → objs w !! this = Some a → objs w !! rhs = Some b →
     let w' := FdHolder_move_assign whole this rhs w in
     objs w' = <[rhs := a]> (<[this := b]> (objs w)) ∧
     trace w' = trace w ∧
     (owners Fd (Fd b) (objs w) = {[rhs]} →
      owners Fd (Fd b) (objs w') = {[this]})) ∧
  (∀ (w : world DirHolder) this rhs b,
     objs w !! this = None → objs w !! rhs = Some b →
     let w' := DirHolder_new this rhs w in
     objs w' = <[this := {| Dir := Dir b; Cookie := Cookie b; Buffer := [] |}]>
                 (<[rhs := {| Dir := 0; Cookie := 0; Buffer := Buffer b |}]>
                    (objs w)) ∧
     trace w' = trace w ∧
     (Dir b ≠ 0 → owners Dir (Dir b) (objs w) = {[rhs]} →
      owners Dir (Dir b) (objs w') = {[this]})) ∧
  (∀ (w : world DirHolder) this rhs a b,
     this ≠ rhs → objs w !! this = Some a → objs w !! rhs = Some b →
     let w' := DirHolder_move_assign whole this rhs w in
     objs w' = <[rhs := {| Dir := Dir a; Cookie := Cookie a;
                           Buffer := Buffer b |}]>
                 (<[this := {| Dir := Dir b; Cookie := Cookie b;
                               Buffer := Buffer a |}]> (objs w)) ∧
     trace w' = trace w ∧
     (owners Dir (Dir b) (objs w) = {[rhs]} →
      owners Dir (Dir b) (objs w') = {[this]})) ∧
  (∀ (w : world TimerHolder) this rhs b,
     objs w !! this = None → objs w !! rhs = Some b →
     let w' := TimerHolder_new this rhs w in
     objs w' = <[this := b]> (<[rhs := {| Id := None |}]> (objs w)) ∧
     trace w' = trace w ∧
     (Id b ≠ None → owners Id (Id b) (objs w) = {[rhs]} →
      owners Id (Id b) (objs w') = {[this]})) ∧
  (∀ (w : world TimerHolder) this rhs a b,
     this ≠ rhs → objs w !! this = Some a → objs w !! rhs = Some b →
     let w' := TimerHolder_move_assign whole this rhs w in
     objs w' = <[rhs := a]> (<[this := b]> (objs w)) ∧
     trace w' = trace w ∧
     (owners Id (Id b) (objs w) = {[rhs]} →
      owners Id (Id b) (objs w') = {[this]})).
Proof.
  assert (∀ {T H} `{EqDecision H} (handle : T → H) x (m : gmap loc T)
            this rhs a,
            this ≠ rhs → m !! this = Some a →
            owners handle x m = {[rhs]} → handle a ≠ x) as Hother.
  { intros T H ? handle x m this rhs a Hne Ha Hown Hx.
    assert (this ∈ owners handle x m) as Hin by (apply elem_of_owners; eauto).
    rewrite Hown in Hin. by apply elem_of_singleton in Hin. }
  repeat apply conj.
  - intros w this rhs b Hthis Hrhs w'. subst w'.
    assert (this ≠ rhs) as Hne by congruence.
    rewrite (FdHolder_new_fresh _ _ _ _ Hthis Hrhs). simpl.
    repeat split. intros Hb.
    apply (owners_transfer Fd (Fd b) (objs w) _ this rhs b FdHolder_default);
      try done; store_lookup.
  - intros w this rhs a b Hne Ha Hb w'. subst w'.
    rewrite (FdHolder_move_assign_ne whole _ _ _ _ _ Hne Ha Hb). simpl.
    repeat split. intros Hown.
    apply (owners_transfer Fd (Fd b) (objs w) _ this rhs b a);
      try done; [..|by eapply Hother]; store_lookup.
  - intros w this rhs b Hthis Hrhs w'. subst w'.
    assert (this ≠ rhs) as Hne by congruence.
    rewrite (DirHolder_new_fresh _ _ _ _ Hthis Hrhs). simpl.
    repeat split. intros Hb.
    apply (owners_transfer Dir (Dir b) (objs w) _ this rhs
             (DirHolder_take b DirHolder_default)
             (DirHolder_take DirHolder_default b));
      try done; store_lookup.
  - intros w this rhs a b Hne Ha Hb w'. subst w'.
    rewrite (DirHolder_move_assign_ne whole _ _ _ _ _ Hne Ha Hb). simpl.
    repeat split. intros Hown.
    apply (owners_transfer Dir (Dir b) (objs w) _ this rhs
             (DirHolder_take b a) (DirHolder_take a b));
      try done; [..|simpl; by eapply (Hother _ _ _ Dir)]; store_lookup.
  - intros w this rhs b Hthis Hrhs w'. subst w'.
    assert (this ≠ rhs) as Hne by congruence.
    rewrite (TimerHolder_new_fresh _ _ _ _ Hthis Hrhs). simpl.
    repeat split. intros Hb.
    apply (owners_transfer Id (Id b) (objs w) _ this rhs b TimerHolder_default);
      try done; store_lookup.
  - intros w this rhs a b Hne Ha Hb w'. subst w'.
    rewrite (TimerHolder_move_assign_ne whole _ _ _ _ _ Hne Ha Hb). simpl.
    repeat split. intros Hown.
    apply (owners_transfer Id (Id b) (objs w) _ this rhs b a);
      try done; [..|by eapply Hother]; store_lookup.
Qed.

Lemma move_transfers_handle_witness :
  (owners Fd 3 (objs (FdHolder_new 3 2 two_fds)) = {[3%positive]} ∧
   owners Fd 3 (objs (FdHolder_move_assign whole 1 2 two_fds))
     = {[1%positive]}) ∧
  (owners Dir 8192 (objs (DirHolder_new 3 2 two_dirs)) = {[3%positive]} ∧
   owners Dir 8192 (objs (DirHolder_move_assign whole 1 2 two_dirs))
     = {[1%positive]}) ∧
  (owners Id (Some 12) (objs (TimerHolder_new 3 2 two_timers))
     = {[3%positive]} ∧
   owners Id (Some 12) (objs (TimerHolder_move_assign whole 1 2 two_timers))
     = {[1%positive]}).
Proof.
  destruct move_transfers_handle as (Hfc & Hfa & Hdc & Hda & Htc & Hta).
  repeat apply conj.
  - apply (Hfc two_fds 3%positive 2%positive {| Fd := 3 |});
      [reflexivity|reflexivity|simpl; lia|reflexivity].
  - apply (Hfa two_fds 1%positive 2%positive {| Fd := 5 |} {| Fd := 3 |});
      [lia|reflexivity|reflexivity|reflexivity].
  - apply (Hdc two_dirs 3%positive 2%positive
             {| Dir := 8192; Cookie := 9; Buffer := [Byte.x02; Byte.x03] |});
      [reflexivity|reflexivity|simpl; lia|reflexivity].
  - apply (Hda two_dirs 1%positive 2%positive
             {| Dir := 4096; Cookie := 7; Buffer := [Byte.x01] |}
             {| Dir := 8192; Cookie := 9; Buffer := [Byte.x02; Byte.x03] |});
      [lia|reflexivity|reflexivity|reflexivity].
  - apply (Htc two_timers 3%positive 2%positive {| Id := Some 12 |});
      [reflexivity|reflexivity|discriminate|reflexivity].
  - apply (Hta two_timers 1%positive 2%positive
             {| Id := Some 11 |} {| Id := Some 12 |});
      [lia|reflexivity|reflexivity|reflexivity].
Defined.

(** C9. Moving a [DirHolder] carries [Dir] and [Cookie] over and leaves
    every [Buffer] where it was. After move construction the new holder has
    the source's stream and cookie and an empty buffer; after move
    assignment the target has the source's stream and cookie and still its
    own buffer. In both cases the source still has the bytes that belong to
    the cookie it gave away. *)
Theorem DirHolder_move_leaves_Buffer_behind :
  (∀ (w : world DirHolder) this rhs b,
     objs w !! this = None → objs w !! rhs = Some b →
     let m' := objs (DirHolder_new this rhs w) in
     load fld_Dir this m' = Some (Dir b) ∧
     load fld_Cookie this m' = Some (Cookie b) ∧
     load fld_Buffer this m' = Some [] ∧
     load fld_Buffer rhs m' = Some (Buffer b)) ∧
  (∀ (w : world DirHolder) this rhs a b,
     objs w !! this = Some a → objs w !! rhs = Some b →
     let m' := objs (DirHolder_move_assign whole this rhs w) in
     load fld_Dir this m' = Some (Dir b) ∧
     load fld_Cookie this m' = Some (Cookie b) ∧
     load fld_Buffer this m' = Some (Buffer a) ∧
     load fld_Buffer rhs m' = Some (Buffer b)).
Proof.
  split.
  - intros w this rhs b Hthis Hrhs m'. subst m'.
    assert (this ≠ rhs) as Hne by congruence.
    rewrite (DirHolder_new_fresh _ _ _ _ Hthis Hrhs). unfold load. simpl.
    rewrite lookup_insert_eq, lookup_insert_ne, lookup_insert_eq by done.
    done.
  - intros w this rhs a b Ha Hb m'. subst m'.
    destruct (decide (this = rhs)) as [->|Hne].
    + rewrite DirHolder_move_assign_self by apply _.
      assert (a = b) as -> by congruence. unfold load. by rewrite Hb.
    + rewrite (DirHolder_move_assign_ne whole _ _ _ _ _ Hne Ha Hb).
      unfold load. simpl.
      rewrite lookup_insert_ne, !lookup_insert_eq by done. done.
Qed.

Lemma DirHolder_move_leaves_Buffer_behind_witness :
  (load fld_Cookie 3 (objs (DirHolder_new 3 2 two_dirs)) = Some 9 ∧
   load fld_Buffer 3 (objs (DirHolder_new 3 2 two_dirs)) = Some [] ∧
   load fld_Buffer 2 (objs (DirHolder_new 3 2 two_dirs))
     = Some [Byte.x02; Byte.x03]) ∧
  (load fld_Cookie 1 (objs (DirHolder_move_assign whole 1 2 two_dirs))
     = Some 9 ∧
   load fld_Buffer 1 (objs (DirHolder_move_assign whole 1 2 two_dirs))
     = Some [Byte.x01] ∧
   load fld_Buffer 2 (objs (DirHolder_move_assign whole 1 2 two_dirs))
     = Some [Byte.x02; Byte.x03]).
Proof.
  destruct DirHolder_move_leaves_Buffer_behind as (Hctor & Hassign).
  split.
  - destruct (Hctor two_dirs 3%positive 2%positive
                {| Dir := 8192; Cookie := 9; Buffer := [Byte.x02; Byte.x03] |}
                eq_refl eq_refl) as (_ & Hc & Hb & Hs).
    repeat split; assumption.
  - destruct (Hassign two_dirs 1%positive 2%positive
                {| Dir := 4096; Cookie := 7; Buffer := [Byte.x01] |}
                {| Dir := 8192; Cookie := 9; Buffer := [Byte.x02; Byte.x03] |}
                eq_refl eq_refl) as (_ & Hc & Hb & Hs).
    repeat split; assumption.
Defined.

(** ** INode: the defaulted move operations *)

(** What moving [b] into an inode leaves in the target and in the source;
    [a] is what the target's [Dir] member held before. *)
Lemma INode_move_ctor_fresh (w : world INode) this rhs b :
  objs w !! this = None → objs w !! rhs = Some b →
  INode_new this rhs w
  = World (<[this := {| INode_FdHolder := INode_FdHolder b; Stat := Stat b;
                        INode_Dir := DirHolder_take (INode_Dir b)
                                       DirHolder_default |}]>
             (<[rhs := {| INode_FdHolder := FdHolder_default; Stat := Stat b;
                          INode_Dir := DirHolder_take DirHolder_default
                                         (INode_Dir b) |}]> (objs w)))
          (trace w).
Proof.
  intros Hthis Hrhs.
  destruct (allocate_other this rhs INode_default b w Hthis Hrhs)
    as [Hne Hrhs'].
  unfold INode_new, construct_from, INode_move_ctor.
  rewrite (FdHolder_move_ctor_ne base_FdHolder _ _ _ _ _ Hne
             (allocate_this _ _ _) Hrhs').
  unfold upd at 1, optional_move. cbn [objs trace].
  erewrite (load_Some fld_Stat rhs) by store_lookup.
  erewrite (store_Some fld_Stat this) by store_lookup.
  erewrite (DirHolder_move_ctor_ne fld_INode_Dir _ _ _ _ _ Hne)
    by (cbn [objs]; store_lookup).
  simpl. f_equal. store_ext.
Qed.

Lemma INode_move_assign_ne (w : world INode) this rhs a b :
  this ≠ rhs → objs w !! this = Some a → objs w !! rhs = Some b →
  INode_move_assign this rhs w
  = World (<[this := {| INode_FdHolder := INode_FdHolder b; Stat := Stat b;
                        INode_Dir := DirHolder_take (INode_Dir b)
                                       (INode_Dir a) |}]>
             (<[rhs := {| INode_FdHolder := INode_FdHolder a; Stat := Stat b;
                          INode_Dir := DirHolder_take (INode_Dir a)
                                         (INode_Dir b) |}]> (objs w)))
          (trace w).
Proof.
  intros Hne Ha Hb. unfold INode_move_assign.
  rewrite (FdHolder_move_assign_ne base_FdHolder _ _ _ _ _ Hne Ha Hb).
  unfold upd at 1, optional_move. cbn [objs trace].
  erewrite (load_Some fld_Stat rhs) by store_lookup.
  erewrite (store_Some fld_Stat this) by store_lookup.
  erewrite (DirHolder_move_assign_ne fld_INode_Dir _ _ _ _ _ Hne)
    by (cbn [objs]; store_lookup).
  simpl. f_equal. store_ext.
Qed.

(** Destroying an inode makes the release calls of its stream and of its
    descriptor, and ends its storage. *)
Lemma INode_delete_live (w : world INode) this o :
  objs w !! this = Some o →
  INode_delete this w
  = World (delete this (objs w)) (trace w ++ INode_releases o).
Proof.
  intros Ho. unfold INode_delete, destroy, INode_dtor, DirHolder_dtor,
    FdHolder_dtor.
  rewrite (DirHolder_reset_live fld_INode_Dir _ _ _ Ho).
  erewrite (FdHolder_reset_live base_FdHolder)
    by (cbn [objs]; store_lookup).
  unfold deallocate, upd, INode_releases. simpl.
  rewrite <- app_assoc. f_equal. store_ext.
Qed.

Lemma closes_app fd tr1 tr2 :
  closes fd (tr1 ++ tr2) = (closes fd tr1 + closes fd tr2)%nat.
Proof. unfold closes. by rewrite filter_app, length_app. Qed.

Lemma closes_INode_releases fd o :
  closes fd (INode_releases o)
  = if bool_decide (Fd (INode_FdHolder o) = fd ∧ fd >= 0) then 1%nat else 0%nat.
Proof.
  unfold closes, INode_releases.
  repeat case_bool_decide; simpl;
    repeat (rewrite filter_cons || rewrite filter_nil);
    repeat case_decide; simplify_eq; simpl; try done;
    repeat match goal with
           | H : _ ∧ _ |- _ => destruct H
           | H : SysClose _ ≠ SysClose _ |- _ => exfalso; apply H; f_equal
           end; lia.
Qed.

(** What a move of an inode does to the descriptors: where they are, what
    [ok()] says, and how often the moved descriptor is closed over the
    lifetimes of both inodes. *)
Lemma INode_move_handles :
  (∀ (w : world INode) this rhs b,
     objs w !! this = None → objs w !! rhs = Some b →
     let d := Fd (INode_FdHolder b) in
     d >= 0 →
     let w' := INode_new this rhs w in
     INode_ok rhs w' = false ∧
     load (base_FdHolder ⋅ fld_Fd) rhs (objs w') = Some (-1) ∧
     load (base_FdHolder ⋅ fld_Fd) this (objs w') = Some d ∧
     trace w' = trace w ∧
     closes d (trace (INode_delete rhs (INode_delete this w')))
       = (closes d (trace w) + 1)%nat ∧
     closes d (trace (INode_delete this (INode_delete rhs w')))
       = (closes d (trace w) + 1)%nat) ∧
  (∀ (w : world INode) this rhs a b,
     this ≠ rhs → objs w !! this = Some a → objs w !! rhs = Some b →
     let d := Fd (INode_FdHolder b) in
     d >= 0 →
     let w' := INode_move_assign this rhs w in
     INode_ok rhs w' = bool_decide (Fd (INode_FdHolder a) >= 0) ∧
     load (base_FdHolder ⋅ fld_Fd) rhs (objs w')
       = Some (Fd (INode_FdHolder a)) ∧
     load (base_FdHolder ⋅ fld_Fd) this (objs w') = Some d ∧
     trace w' = trace w ∧
     (Fd (INode_FdHolder a) ≠ d →
      closes d (trace (INode_delete rhs (INode_delete this w')))
        = (closes d (trace w) + 1)%nat ∧
      closes d (trace (INode_delete this (INode_delete rhs w')))
        = (closes d (trace w) + 1)%nat)).
Proof.
  split.
  - intros w this rhs b Hthis Hrhs d Hd w'. subst w'.
    assert (this ≠ rhs) as Hne by congruence.
    rewrite (INode_move_ctor_fresh _ _ _ _ Hthis Hrhs).
    unfold INode_ok, FdHolder_ok, load. cbn [objs trace].
    rewrite lookup_insert_eq, lookup_insert_ne, lookup_insert_eq by done.
    repeat split.
    + erewrite (INode_delete_live _ this) by (cbn [objs]; store_lookup).
      erewrite (INode_delete_live _ rhs)
        by (cbn [objs]; rewrite lookup_delete_ne by done; store_lookup).
      cbn [trace]. rewrite !closes_app, !closes_INode_releases. simpl.
      fold d. repeat case_bool_decide; lia.
    + erewrite (INode_delete_live _ rhs) by (cbn [objs]; store_lookup).
      erewrite (INode_delete_live _ this)
        by (cbn [objs]; rewrite lookup_delete_ne by done; store_lookup).
      cbn [trace]. rewrite !closes_app, !closes_INode_releases. simpl.
      fold d. repeat case_bool_decide; lia.
  - intros w this rhs a b Hne Ha Hb d Hd w'. subst w'.
    rewrite (INode_move_assign_ne _ _ _ _ _ Hne Ha Hb).
    unfold INode_ok, FdHolder_ok, load. cbn [objs trace].
    rewrite lookup_insert_eq, lookup_insert_ne, lookup_insert_eq by done.
    repeat split.
    + erewrite (INode_delete_live _ this) by (cbn [objs]; store_lookup).
      erewrite (INode_delete_live _ rhs)
        by (cbn [objs]; rewrite lookup_delete_ne by done; store_lookup).
      cbn [trace]. rewrite !closes_app, !closes_INode_releases. simpl.
      fold d. repeat case_bool_decide; lia.
    + erewrite (INode_delete_live _ rhs) by (cbn [objs]; store_lookup).
      erewrite (INode_delete_live _ this)
        by (cbn [objs]; rewrite lookup_delete_ne by done; store_lookup).
      cbn [trace]. rewrite !closes_app, !closes_INode_releases. simpl.
      fold d. repeat case_bool_decide; lia.
Qed.

(** The verbs that go to the descriptor depend on the inode only through
    its [Fd]. *)
Lemma descriptor_verbs_by_Fd granted (w1 w2 : world INode) p q
    (k : gmap Z open_file) IOVs Offset N0 :
  load (base_FdHolder ⋅ fld_Fd) p (objs w1)
    = load (base_FdHolder ⋅ fld_Fd) q (objs w2) →
  INode_fdTell p N0 w1 k = INode_fdTell q N0 w2 k ∧
  INode_fdPread granted p IOVs Offset N0 w1 k
    = INode_fdPread granted q IOVs Offset N0 w2 k ∧
  INode_fdPwrite granted p IOVs Offset N0 w1 k
    = INode_fdPwrite granted q IOVs Offset N0 w2 k.
Proof.
  intros Hfd. unfold INode_fdTell, INode_fdPread, INode_fdPwrite.
  by rewrite Hfd.
Qed.

(** On a descriptor the host does not have open they fail with
    bad-descriptor and leave their output parameters and the host as they
    were. *)
Lemma descriptor_verbs_bad_descriptor granted (w : world INode) p fd
    (k : gmap Z open_file) IOVs Offset N0 :
  load (base_FdHolder ⋅ fld_Fd) p (objs w) = Some fd → k !! fd = None →
  INode_fdTell p N0 w k = (Unexpected ERRNO_BADF, N0) ∧
  INode_fdPread granted p IOVs Offset N0 w k
    = (Unexpected ERRNO_BADF, IOVs, N0, k) ∧
  INode_fdPwrite granted p IOVs Offset N0 w k
    = (Unexpected ERRNO_BADF, N0, k).
Proof.
  intros Hfd Hk. unfold INode_fdTell, INode_fdPread, INode_fdPwrite.
  by rewrite Hfd, Hk.
Qed.

(** C2, as the design document states it, fails in two ways. After move
    assignment: the inode at [2] is moved into the inode at [1], which
    holds descriptor 5, and afterwards the moved-from inode holds
    descriptor 5 and [ok()] is true. After move construction: the inode at
    [2], whose metadata are cached, is moved into a new inode; [ok()] on it
    is then false, but asked for the file size it still answers 120 from
    the metadata it has kept, on a host that knows no descriptor at all. *)
Lemma INode_moved_from_still_reports :
  (INode_ok 2 two_inodes = true ∧
   INode_ok 2 (INode_move_assign 1 2 two_inodes) = true ∧
   load (base_FdHolder ⋅ fld_Fd) 2 (objs (INode_move_assign 1 2 two_inodes))
     = Some 5) ∧
  (INode_ok 2 (INode_new 3 2 two_inodes) = false ∧
   INode_filesize (λ _, Unexpected ERRNO_BADF) 2 (INode_new 3 2 two_inodes)
     = (Expected 120, INode_new 3 2 two_inodes)).
Proof. repeat split; reflexivity. Qed.

(** C2, amended. For an inode [I] holding an open descriptor [d].
    After move construction from [I] the moved-from inode has [Fd == -1]:
    [ok()] is false and the status verbs fail, that is, on a host that has
    no descriptor [-1] the verbs that go to the descriptor ([fdTell],
    [fdPread], [fdPwrite]) return bad-descriptor and change nothing; the
    accessor answered from the metadata cache ([filesize]) fails with the
    host's error as well when the cache of [I] was empty, and answers from
    the kept metadata when it was populated.
    After move assignment from [I] into another inode the moved-from inode
    holds the descriptor the target held: [ok()] is false exactly when the
    target held none, and the verbs that go to the descriptor answer on it
    as they answered on the target before the move.
    In both cases the move releases nothing, the target holds [d], and over
    the lifetimes of both inodes, destroyed in either order, [d] is closed
    exactly once (for assignment: when the target did not hold the same
    descriptor). *)
Theorem INode_move_closes_once :
  (∀ (w : world INode) this rhs b,
     objs w !! this = None → objs w !! rhs = Some b →
     let d := Fd (INode_FdHolder b) in
     d >= 0 →
     let w' := INode_new this rhs w in
     INode_ok rhs w' = false ∧
     load (base_FdHolder ⋅ fld_Fd) rhs (objs w') = Some (-1) ∧
     load (base_FdHolder ⋅ fld_Fd) this (objs w') = Some d ∧
     trace w' = trace w ∧
     closes d (trace (INode_delete rhs (INode_delete this w')))
       = (closes d (trace w) + 1)%nat ∧
     closes d (trace (INode_delete this (INode_delete rhs w')))
       = (closes d (trace w) + 1)%nat ∧
     (∀ granted (k : gmap Z open_file) IOVs Offset N0,
        k !! (-1) = None →
        INode_fdTell rhs N0 w' k = (Unexpected ERRNO_BADF, N0) ∧
        INode_fdPread granted rhs IOVs Offset N0 w' k
          = (Unexpected ERRNO_BADF, IOVs, N0, k) ∧
        INode_fdPwrite granted rhs IOVs Offset N0 w' k
          = (Unexpected ERRNO_BADF, N0, k)) ∧
     (∀ (os_fstat : Z → WasiExpect stat) e,
        os_fstat (-1) = Unexpected e →
        INode_filesize os_fstat rhs w'
        = match Stat b with
          | Some st => (Expected (st_size st), w')
          | None => (Unexpected e, w')
          end)) ∧
  (∀ (w : world INode) this rhs a b,
     this ≠ rhs → objs w !! this = Some a → objs w !! rhs = Some b →
     let d := Fd (INode_FdHolder b) in
     d >= 0 →
     let w' := INode_move_assign this rhs w in
     INode_ok rhs w' = bool_decide (Fd (INode_FdHolder a) >= 0) ∧
     load (base_FdHolder ⋅ fld_Fd) rhs (objs w')
       = Some (Fd (INode_FdHolder a)) ∧
     load (base_FdHolder ⋅ fld_Fd) this (objs w') = Some d ∧
     trace w' = trace w ∧
     (Fd (INode_FdHolder a) ≠ d →
      closes d (trace (INode_delete rhs (INode_delete this w')))
        = (closes d (trace w) + 1)%nat ∧
      closes d (trace (INode_delete this (INode_delete rhs w')))
        = (closes d (trace w) + 1)%nat) ∧
     (∀ granted (k : gmap Z open_file) IOVs Offset N0,
        INode_fdTell rhs N0 w' k = INode_fdTell this N0 w k ∧
        INode_fdPread granted rhs IOVs Offset N0 w' k
          = INode_fdPread granted this IOVs Offset N0 w k ∧
        INode_fdPwrite granted rhs IOVs Offset N0 w' k
          = INode_fdPwrite granted this IOVs Offset N0 w k)).
Proof.
  destruct INode_move_handles as [Hctor Hassign]. split.
  - intros w this rhs b Hthis Hrhs d Hd w'.
    destruct (Hctor w this rhs b Hthis Hrhs Hd)
      as (Hok & Hsrc & Hdst & Htr & Hc1 & Hc2).
    fold w' in Hok, Hsrc, Hdst, Htr, Hc1, Hc2.
    do 6 (split; [assumption|]). split.
    + intros granted k IOVs Offset N0 Hk.
      by apply (descriptor_verbs_bad_descriptor granted w' rhs (-1)).
    + intros os_fstat e He. assert (this ≠ rhs) as Hne by congruence.
      unfold INode_filesize, INode_updateStat. rewrite Hsrc.
      assert (load fld_Stat rhs (objs w') = Some (Stat b)) as ->.
      { unfold w'. rewrite (INode_move_ctor_fresh _ _ _ _ Hthis Hrhs).
        unfold load. cbn [objs].
        by rewrite lookup_insert_ne, lookup_insert_eq by done. }
      destruct (Stat b); [done|]. by rewrite He.
  - intros w this rhs a b Hne Ha Hb d Hd w'.
    destruct (Hassign w this rhs a b Hne Ha Hb Hd)
      as (Hok & Hsrc & Hdst & Htr & Hc).
    fold w' in Hok, Hsrc, Hdst, Htr, Hc.
    do 5 (split; [assumption|]).
    intros granted k IOVs Offset N0.
    apply descriptor_verbs_by_Fd. rewrite Hsrc.
    unfold load. by rewrite Ha.
Qed.

Lemma INode_move_closes_once_witness :
  (INode_ok 2 (INode_new 3 2 two_inodes) = false ∧
   closes 3 (trace (INode_delete 2 (INode_delete 3 (INode_new 3 2 two_inodes))))
     = 1%nat ∧
   INode_fdTell 2 0 (INode_new 3 2 two_inodes) sample_files
     = (Unexpected ERRNO_BADF, 0%N) ∧
   INode_filesize (λ _, Unexpected ERRNO_BADF) 2 (INode_new 3 2 two_inodes)
     = (Expected 120, INode_new 3 2 two_inodes)) ∧
  (INode_ok 2 (INode_move_assign 1 2 two_inodes) = true ∧
   closes 3 (trace (INode_delete 2 (INode_delete 1
                      (INode_move_assign 1 2 two_inodes)))) = 1%nat ∧
   INode_fdTell 2 0 (INode_move_assign 1 2 two_inodes) sample_files
     = INode_fdTell 1 0 two_inodes sample_files).
Proof.
  destruct INode_move_closes_once as (Hctor & Hassign).
  split.
  - destruct (Hctor two_inodes 3%positive 2%positive
                {| INode_FdHolder := {| Fd := 3 |};
                   Stat := Some {| st_ino := 77; st_mode := 33188;
                                   st_uid := 0; st_gid := 0; st_size := 120 |};
                   INode_Dir := DirHolder_default |}
                eq_refl eq_refl ltac:(simpl; lia))
      as (Hok & _ & _ & _ & Hc & _ & Hverbs & Hsize).
    destruct (Hverbs (λ n, n) sample_files [] 0%N 0%N eq_refl)
      as (Htell & _).
    pose proof (Hsize (λ _, Unexpected ERRNO_BADF) ERRNO_BADF eq_refl)
      as Hsize'.
    repeat split; assumption.
  - destruct (Hassign two_inodes 1%positive 2%positive
                {| INode_FdHolder := {| Fd := 5 |}; Stat := None;
                   INode_Dir := {| Dir := 4096; Cookie := 0; Buffer := [] |} |}
                {| INode_FdHolder := {| Fd := 3 |};
                   Stat := Some {| st_ino := 77; st_mode := 33188;
                                   st_uid := 0; st_gid := 0; st_size := 120 |};
                   INode_Dir := DirHolder_default |}
                ltac:(lia) eq_refl eq_refl ltac:(simpl; lia))
      as (Hok & _ & _ & _ & Hc & Hverbs).
    destruct (Hc ltac:(simpl; lia)) as (Hc1 & _).
    destruct (Hverbs (λ n, n) sample_files [] 0%N 0%N) as (Htell & _).
    repeat split; assumption.
Defined.

(** C10. After move-constructing from an inode whose metadata cache is
    populated, the moved-from inode has the empty descriptor [-1] and its
    [Stat] is still engaged with the old metadata; the new inode has the
    descriptor and a copy of the metadata. *)
Theorem INode_move_keeps_source_Stat :
  ∀ (w : world INode) this rhs b st,
    objs w !! this = None → objs w !! rhs = Some b → Stat b = Some st →
    let m' := objs (INode_new this rhs w) in
    load fld_Stat rhs m' = Some (Some st) ∧
    load (base_FdHolder ⋅ fld_Fd) rhs m' = Some (-1) ∧
    load fld_Stat this m' = Some (Some st) ∧
    load (base_FdHolder ⋅ fld_Fd) this m' = Some (Fd (INode_FdHolder b)).
Proof.
  intros w this rhs b st Hthis Hrhs Hst m'. subst m'.
  assert (this ≠ rhs) as Hne by congruence.
  rewrite (INode_move_ctor_fresh _ _ _ _ Hthis Hrhs).
  unfold load. cbn [objs].
  rewrite lookup_insert_eq, lookup_insert_ne, lookup_insert_eq by done.
  simpl. by rewrite Hst.
Qed.

Lemma INode_move_keeps_source_Stat_witness :
  load fld_Stat 2 (objs (INode_new 3 2 two_inodes))
    = Some (Some {| st_ino := 77; st_mode := 33188; st_uid := 0; st_gid := 0;
                    st_size := 120 |}) ∧
  load (base_FdHolder ⋅ fld_Fd) 2 (objs (INode_new 3 2 two_inodes))
    = Some (-1).
Proof.
  destruct (INode_move_keeps_source_Stat two_inodes 3%positive 2%positive
              {| INode_FdHolder := {| Fd := 3 |};
                 Stat := Some {| st_ino := 77; st_mode := 33188;
                                 st_uid := 0; st_gid := 0; st_size := 120 |};
                 INode_Dir := DirHolder_default |}
              {| st_ino := 77; st_mode := 33188; st_uid := 0; st_gid := 0;
                 st_size := 120 |}
              eq_refl eq_refl eq_refl) as (Hs & Hf & _).
  split; assumption.
Defined.

(** The consequence C10 names: whatever the host would answer for the
    descriptor, the size accessor of the moved-from inode answers from the
    metadata it has kept, though the inode holds no descriptor any more. *)
Lemma moved_from_INode_answers_from_kept_Stat
    (os_fstat : Z → WasiExpect stat) (w : world INode) this rhs b st :
  objs w !! this = None → objs w !! rhs = Some b → Stat b = Some st →
  let w' := INode_new this rhs w in
  INode_ok rhs w' = false ∧
  INode_filesize os_fstat rhs w' = (Expected (st_size st), w').
Proof.
  intros Hthis Hrhs Hst w'. subst w'.
  assert (this ≠ rhs) as Hne by congruence.
  rewrite (INode_move_ctor_fresh _ _ _ _ Hthis Hrhs).
  unfold INode_ok, FdHolder_ok, INode_filesize, load. cbn [objs].
  rewrite lookup_insert_ne, lookup_insert_eq by done. simpl.
  by rewrite Hst.
Qed.

(** ** Claims about the verbs *)

Lemma length_scatter_concat (data : list Byte.byte) IOVs :
  (length data ≤ length (concat IOVs))%nat →
  take (length data) (concat (scatter data IOVs)) = data.
Proof.
  revert data. induction IOVs as [|iov rest IH]; intros data Hlen; simpl in *.
  - destruct data; [done|simpl in Hlen; lia].
  - rewrite length_app in Hlen.
    destruct (decide (length data ≤ length iov)%nat) as [Hle|Hgt].
    + rewrite (take_ge data) by lia. rewrite <- app_assoc.
      by rewrite take_app_length.
    + rewrite length_take, Nat.min_l by lia.
      rewrite drop_all, app_nil_r.
      assert (length data
              = length iov + length (drop (length iov) data))%nat as Hsplit
        by (rewrite length_drop; lia).
      rewrite Hsplit at 1.
      rewrite take_app_add' by (rewrite length_take; lia).
      rewrite IH by (rewrite length_drop; lia).
      apply take_drop.
Qed.

Lemma take_length_take {A} n (l : list A) :
  take (length (take n l)) l = take n l.
Proof.
  rewrite length_take.
  destruct (decide (n ≤ length l)%nat) as [Hle|Hgt].
  - by rewrite Nat.min_l.
  - rewrite Nat.min_r by lia. by rewrite !take_ge by lia.
Qed.

Lemma write_at_read off data old :
  take (length data) (drop off (write_at off data old)) = data.
Proof.
  unfold write_at.
  destruct (decide (off ≤ length old)%nat) as [Hle|Hgt].
  - replace (off - length old)%nat with 0%nat by lia. simpl.
    rewrite drop_app_length' by (rewrite length_take; lia).
    by rewrite take_app_length.
  - rewrite (take_ge old) by lia. rewrite app_assoc.
    rewrite drop_app_length' by (rewrite length_app, length_replicate; lia).
    by rewrite take_app_length.
Qed.

(** C6. On an open inode, [fdPread] reads and [fdPwrite] writes at the
    offset they are given (the bytes transferred are the bytes of the file
    from that offset on), and [fdTell] gives the same offset after the call
    as before it. *)
Theorem positioned_io_keeps_position :
  ∀ (granted : nat → nat) (w : world INode) (k : gmap Z open_file)
    this fd f IOVs Offset N0 Size0,
    load (base_FdHolder ⋅ fld_Fd) this (objs w) = Some fd →
    k !! fd = Some f →
    INode_fdTell this Size0 w k = (Expected tt, of_pos f) ∧
    (let '(res, IOVs', NRead, k') :=
       INode_fdPread granted this IOVs Offset N0 w k in
     res = Expected tt ∧
     take (N.to_nat NRead) (concat IOVs')
       = take (N.to_nat NRead) (drop (N.to_nat Offset) (of_data f)) ∧
     INode_fdTell this Size0 w k' = INode_fdTell this Size0 w k) ∧
    (let '(res, NWritten, k') :=
       INode_fdPwrite granted this IOVs Offset N0 w k in
     res = Expected tt ∧
     (∃ f', k' !! fd = Some f' ∧
            take (N.to_nat NWritten) (drop (N.to_nat Offset) (of_data f'))
              = take (N.to_nat NWritten) (concat IOVs)) ∧
     INode_fdTell this Size0 w k' = INode_fdTell this Size0 w k).
Proof.
  intros granted w k this fd f IOVs Offset N0 Size0 Hfd Hf.
  unfold INode_fdTell, INode_fdPread, INode_fdPwrite.
  rewrite Hfd, Hf. split; [done|]. split.
  - split; [done|]. split; [|by rewrite Hf].
    set (avail := drop (N.to_nat Offset) (of_data f)).
    set (data := take _ avail).
    rewrite Nat2N.id.
    assert (length data ≤ length (concat IOVs))%nat as Hlen.
    { unfold data, transferred. rewrite length_take. lia. }
    rewrite (length_scatter_concat _ _ Hlen).
    unfold data. symmetry. apply take_length_take.
  - split; [done|]. rewrite lookup_insert_eq. split; [|done].
    eexists. split; [done|]. cbn [of_data]. rewrite Nat2N.id.
    rewrite write_at_read. symmetry. apply take_length_take.
Qed.

Lemma positioned_io_keeps_position_witness :
  INode_fdTell 2 0%N two_inodes sample_files = (Expected tt, 2%N) ∧
  INode_fdTell 2 0%N two_inodes
    (INode_fdPread (λ n, n) 2 [[Byte.x00]; [Byte.x00; Byte.x00]] 1 0
       two_inodes sample_files).2
    = (Expected tt, 2%N) ∧
  INode_fdTell 2 0%N two_inodes
    (INode_fdPwrite (λ n, n) 2 [[Byte.xff]; [Byte.xfe; Byte.xfd]] 4 0
       two_inodes sample_files).2
    = (Expected tt, 2%N).
Proof.
  pose proof (positioned_io_keeps_position (λ n, n) two_inodes sample_files
                2%positive 3
                {| of_data := [Byte.x01; Byte.x02; Byte.x03; Byte.x04;
                               Byte.x05];
                   of_pos := 2%N |}
                [[Byte.x00]; [Byte.x00; Byte.x00]] 1%N 0%N 0%N
                eq_refl eq_refl) as (Htell & Hread & _).
  pose proof (positioned_io_keeps_position (λ n, n) two_inodes sample_files
                2%positive 3
                {| of_data := [Byte.x01; Byte.x02; Byte.x03; Byte.x04;
                               Byte.x05];
                   of_pos := 2%N |}
                [[Byte.xff]; [Byte.xfe; Byte.xfd]] 4%N 0%N 0%N
                eq_refl eq_refl) as (_ & _ & Hwrite).
  cbv beta iota zeta delta [INode_fdPread INode_fdPwrite] in Hread, Hwrite.
  change (load (base_FdHolder ⋅ fld_Fd) 2 (objs two_inodes)) with (Some 3)
    in Hread, Hwrite.
  change (sample_files !! 3) with
    (Some {| of_data := [Byte.x01; Byte.x02; Byte.x03; Byte.x04; Byte.x05];
             of_pos := 2%N |}) in Hread, Hwrite.
  cbv beta iota in Hread, Hwrite.
  destruct Hread as (_ & _ & Hr). destruct Hwrite as (_ & _ & Hw).
  split; [exact Htell|]. split.
  - etransitivity; [exact Hr|exact Htell].
  - etransitivity; [exact Hw|exact Htell].
Defined.

(** C5, as the design document states it, fails in its last part: the
    result of [pathReadlink] does not carry the number of bytes written.
    The link [l] has the target [abc]; read into a buffer of one byte and
    into a buffer of two bytes, both too small, the verb gives the same
    result while it has written one byte and two bytes: no function of the
    result is the count. *)
Lemma pathReadlink_reports_no_count :
  ¬ ∃ report : WasiExpect unit → nat,
      ∀ Buffer : list Byte.byte,
        (length Buffer < 3)%nat →
        report (INode_pathReadlink sample_links 1 [Byte.x6c] Buffer
                  two_inodes).1
        = readlink_written (length Buffer) [Byte.x61; Byte.x62; Byte.x63].
Proof.
  intros [report Hreport].
  pose proof (Hreport [Byte.x00] ltac:(simpl; lia)) as H1.
  pose proof (Hreport [Byte.x00; Byte.x00] ltac:(simpl; lia)) as H2.
  vm_compute in H1, H2. congruence.
Qed.

(** C5, amended. A call to [pathReadlink] with a buffer smaller than the
    target of the link succeeds and fills the buffer with the first bytes
    of the target, as many as the buffer has room for; the call returns
    success or an error and nothing else. *)
Theorem pathReadlink_truncates :
  ∀ (links : symlinks) (w : world INode) this fd Path Buffer target,
    load (base_FdHolder ⋅ fld_Fd) this (objs w) = Some fd →
    links fd Path = Expected target →
    (length Buffer < length target)%nat →
    INode_pathReadlink links this Path Buffer w
      = (Expected tt, take (length Buffer) target) ∧
    readlink_written (length Buffer) target = length Buffer.
Proof.
  intros links w this fd Path Buffer target Hfd Hlink Hlt.
  unfold INode_pathReadlink, readlink_written. rewrite Hfd, Hlink.
  rewrite length_take, Nat.min_l by lia.
  by rewrite drop_all, app_nil_r.
Qed.

Lemma pathReadlink_truncates_witness :
  INode_pathReadlink sample_links 1 [Byte.x6c] [Byte.x00; Byte.x00] two_inodes
    = (Expected tt, [Byte.x61; Byte.x62]) ∧
  readlink_written 2 [Byte.x61; Byte.x62; Byte.x63] = 2%nat.
Proof.
  apply (pathReadlink_truncates sample_links two_inodes 1%positive 5
           [Byte.x6c] [Byte.x00; Byte.x00] [Byte.x61; Byte.x62; Byte.x63]).
  - reflexivity.
  - reflexivity.
  - simpl. lia.
Defined.

(** ** Directory enumeration *)

Section ReaddirFacts.
Context (header : Z → Z → Z → Z → list Byte.byte).

(** The loop stores the entries from the stream position on, cut at the
    capacity of the buffer. *)
Lemma fill_entries_out cap pos es scratch :
  (fill_entries header cap pos es scratch).1.1
  = take cap (dirent_records header pos es).
Proof.
  revert cap pos scratch. induction es as [|e es IH]; intros cap pos scratch.
  - simpl. by rewrite take_nil.
  - destruct cap as [|cap]; [done|]. cbn [fill_entries dirent_records].
    specialize (IH (S cap - length (dirent_record header (S pos) e))%nat
                   (S pos) (dirent_record header (S pos) e)).
    destruct (fill_entries _ _ _ _ _) as [[out pos'] scratch'].
    cbn [fst] in *. rewrite IH. by rewrite take_app.
Qed.

Lemma fdReaddir_tracked this d entries w k Buf Ck Size :
  cursor_tracked this d entries w k →
  let r := INode_fdReaddir header this Buf Ck Size w k in
  rd_res r = Expected tt ∧
  (rd_Buffer r, rd_Size r) = replay header entries Buf Ck ∧
  cursor_tracked this d entries (rd_world r) (rd_streams r).
Proof.
  intros (D & s & HD & <- & Hs & <- & Htrack). cbv zeta.
  unfold INode_fdReaddir. rewrite HD, Hs.
  assert ((if bool_decide (Z.of_N Ck = Cookie D)
           then ds_pos s else N.to_nat Ck) = N.to_nat Ck) as ->.
  { case_bool_decide; [lia|done]. }
  pose proof (fill_entries_out (length Buf) (N.to_nat Ck)
                (drop (N.to_nat Ck) (ds_entries s)) (Buffer D)) as Hout.
  destruct (fill_entries _ _ _ _ _) as [[out pos'] scratch].
  cbn [fst] in Hout. subst out. cbn [rd_res rd_Buffer rd_Size rd_world
                                      rd_streams].
  split; [done|]. split; [done|].
  unfold load in HD. destruct (objs w !! this) as [o|] eqn:Ho; [|done].
  eexists _, _. unfold load, upd. cbn [objs].
  rewrite (store_Some _ _ _ _ _ Ho), !lookup_insert_eq. cbn.
  by repeat split.
Qed.

Lemma fdReaddir_calls_tracked this d entries calls w k :
  cursor_tracked this d entries w k →
  cursor_tracked this d entries
    (fdReaddir_calls header this calls w k).1
    (fdReaddir_calls header this calls w k).2.
Proof.
  revert w k. unfold fdReaddir_calls.
  induction calls as [|call calls IH]; intros w k Htrack; [done|].
  cbn [foldl fst snd]. apply IH.
  by apply (fdReaddir_tracked this d entries w k call.1 call.2 0%N).
Qed.
End ReaddirFacts.

(** C4. On a directory inode whose holder tracks the cursor of its stream,
    after any series of other enumeration calls, a call with the cursor
    [Ck] succeeds and stores exactly the entries that follow [Ck], each
    once and in stream order, cut at the capacity of the buffer: the same
    bytes and the same size as the call gives when none of the other calls
    has been made. *)
Theorem fdReaddir_replays_from_cursor :
  ∀ (header : Z → Z → Z → Z → list Byte.byte) (w : world INode)
    (k : gmap Z dirstream) this d entries calls Buf Ck,
    cursor_tracked this d entries w k →
    let st := fdReaddir_calls header this calls w k in
    let r := INode_fdReaddir header this Buf Ck 0%N st.1 st.2 in
    let r0 := INode_fdReaddir header this Buf Ck 0%N w k in
    rd_res r = Expected tt ∧
    (rd_Buffer r, rd_Size r) = replay header entries Buf Ck ∧
    (rd_Buffer r, rd_Size r) = (rd_Buffer r0, rd_Size r0).
Proof.
  intros header w k this d entries calls Buf Ck Htrack st r r0.
  pose proof (fdReaddir_calls_tracked header this d entries calls w k Htrack)
    as Htrack'.
  destruct (fdReaddir_tracked header this d entries _ _ Buf Ck 0%N Htrack')
    as (Hres & Hout & _).
  destruct (fdReaddir_tracked header this d entries _ _ Buf Ck 0%N Htrack)
    as (_ & Hout0 & _).
  split; [exact Hres|]. split; [exact Hout|].
  etransitivity; [exact Hout|]. symmetry. exact Hout0.
Qed.

Lemma fdReaddir_replays_from_cursor_witness :
  rd_res (INode_fdReaddir sample_header 1 (replicate 8 Byte.xff) 1 0
            (fdReaddir_calls sample_header 1 sample_calls
               two_inodes sample_streams).1
            (fdReaddir_calls sample_header 1 sample_calls
               two_inodes sample_streams).2)
  = Expected tt ∧
  rd_Buffer (INode_fdReaddir sample_header 1 (replicate 8 Byte.xff) 1 0
               (fdReaddir_calls sample_header 1 sample_calls
                  two_inodes sample_streams).1
               (fdReaddir_calls sample_header 1 sample_calls
                  two_inodes sample_streams).2)
  = [Byte.x02; Byte.x0c; Byte.x02; Byte.x03; Byte.x61; Byte.x62;
     Byte.x03; Byte.x0d].
Proof.
  assert (cursor_tracked 1 4096 sample_entries two_inodes sample_streams)
    as Htrack.
  { exists {| Dir := 4096; Cookie := 0; Buffer := [] |},
           {| ds_entries := sample_entries; ds_pos := 0 |}.
    repeat split; reflexivity. }
  destruct (fdReaddir_replays_from_cursor sample_header two_inodes
              sample_streams 1%positive 4096 sample_entries sample_calls
              (replicate 8 Byte.xff) 1%N Htrack) as (Hres & Hout & _).
  split; [exact Hres|]. exact (f_equal fst Hout).
Defined.

(** ** Poller: the timers of one wait *)

Lemma Timer_delete_live (w : world Timer) this o :
  objs w !! this = Some o →
  destroy Timer_dtor this w
  = World (delete this (objs w)) (trace w ++ Timer_releases o).
Proof.
  intros Ho. unfold destroy, Timer_dtor, TimerHolder_dtor, FdHolder_dtor.
  rewrite (TimerHolder_reset_live fld_TimerId _ _ _ Ho).
  erewrite (FdHolder_reset_live fld_Notify) by (cbn [objs]; store_lookup).
  erewrite (FdHolder_reset_live base_Timer) by (cbn [objs]; store_lookup).
  unfold deallocate, upd, Timer_releases. simpl.
  rewrite <- !app_assoc. f_equal. store_ext.
Qed.

(** What a timer has been given is what its destruction gives back. *)
Lemma acquisitions_balance h :
  omap released (acquisitions h) = [] ∧
  omap acquired (acquisitions h)
    ≡ₚ omap released (Timer_releases (Timer_of_handles h)).
Proof.
  unfold acquisitions, Timer_releases. destruct h as [fd notify [id|]]; simpl;
    repeat case_bool_decide; simpl; (split; [done|]); try done;
    solve_Permutation.
Qed.

Lemma Timer_releases_acquire_nothing o :
  omap acquired (Timer_releases o) = [].
Proof.
  unfold Timer_releases.
  destruct (Id (TimerId o)); repeat case_bool_decide; done.
Qed.

Section PollerWaitFacts.
Context (os_timer : nat → Z → Z → Z → Z → WasiExpect unit * timer_handles)
        (os_wait : list subscription → list completion).

(** Creating a timer in a freshly constructed [Timer] makes no release call
    and leaves the handles of the host in the timer. *)
Lemma Timer_create_fresh n this Clock Timeout Precision Flags
    (w : world Timer) :
  objs w !! this = Some Timer_default →
  let rh := os_timer n Clock Timeout Precision Flags in
  Timer_create os_timer n this Clock Timeout Precision Flags w
  = (rh.1, World (<[this := Timer_of_handles rh.2]> (objs w))
                 (trace w ++ acquisitions rh.2)).
Proof.
  intros Ho rh. unfold Timer_create. fold rh.
  destruct rh as [res h]. cbn [fst snd].
  erewrite (FdHolder_emplace_live base_Timer) by (cbn [objs]; exact Ho).
  erewrite (FdHolder_emplace_live fld_Notify) by (cbn [objs]; store_lookup).
  cbn [objs trace]. simpl.
  destruct h as [fd notify [id|]]; cbn [th_id].
  - erewrite (TimerHolder_emplace_live fld_TimerId)
      by (cbn [objs]; store_lookup).
    simpl. rewrite !app_nil_r. f_equal. f_equal. store_ext.
  - rewrite !app_nil_r. f_equal. f_equal. store_ext.
Qed.

(** Destroying live, distinct timers ends their storage and makes the
    release calls of each. *)
Lemma release_timers_live made os (w : world Timer) :
  NoDup made →
  Forall2 (λ t o, objs w !! t = Some o) made os →
  release_timers made w
  = World (foldr delete (objs w) made)
          (trace w ++ concat (Timer_releases <$> os)).
Proof.
  intros Hnd Hlive. revert w Hlive.
  induction os as [|o os IH] in made, Hnd |- *; intros w Hlive.
  - apply Forall2_nil_inv_r in Hlive as ->. simpl.
    rewrite app_nil_r. by destruct w.
  - apply Forall2_cons_inv_r in Hlive as (t & made' & Ht & Hlive & ->).
    apply NoDup_cons in Hnd as [Hnotin Hnd].
    cbn [release_timers foldl]. rewrite (Timer_delete_live _ _ _ Ht).
    change (foldl _ ?w0 made') with (release_timers made' w0).
    rewrite (IH made' Hnd).
    + cbn [objs trace fmap list_fmap concat foldr].
      rewrite <- app_assoc. f_equal.
      by rewrite delete_foldr_delete.
    + cbn [objs]. clear IH Hnd Ht.
      induction Hlive as [|t' o' made' os' Ht' _ IH']; constructor.
      * rewrite lookup_delete_ne; [done|]. intros ->. apply Hnotin. left.
      * apply IH'. intros Hin. apply Hnotin. by right.
Qed.

(** The timers of one wait are new, distinct and live when the series ends;
    nothing else in the store has changed; the series has made no release
    call, and what it has acquired is what the destruction of its timers
    releases. Its result is the error of the first failure. *)
Lemma create_timers_made subs n (w : world Timer) :
  let r := create_timers os_timer n subs w in
  ∃ os evs,
    r.1.1 = match first_failure os_timer n subs with
            | Some e => Unexpected e
            | None => Expected tt
            end ∧
    NoDup r.1.2 ∧
    Forall (λ t, objs w !! t = None) r.1.2 ∧
    Forall2 (λ t o, objs r.2 !! t = Some o) r.1.2 os ∧
    (∀ q, q ∉ r.1.2 → objs r.2 !! q = objs w !! q) ∧
    trace r.2 = trace w ++ evs ∧
    omap released evs = [] ∧
    omap acquired evs ≡ₚ omap released (concat (Timer_releases <$> os)).
Proof.
  revert n w. induction subs as [|sub rest IH]; intros n w.
  - exists [], []. simpl. rewrite app_nil_r.
    repeat split; try done; constructor.
  - destruct sub as [Clock Timeout Precision Flags UserData| |];
      [|apply IH..].
    cbn [create_timers first_failure].
    pose proof (fresh_loc_free w) as Hfresh. set (this := fresh_loc w) in *.
    rewrite (Timer_create_fresh n this Clock Timeout Precision Flags
               (allocate this Timer_default w) (allocate_this _ _ _)).
    destruct (os_timer n Clock Timeout Precision Flags) as [res h].
    cbn [fst snd allocate upd objs trace]. rewrite insert_insert_eq.
    destruct (acquisitions_balance h) as [Hrel Hacq].
    destruct res as [[]|e].
    + set (w1 := World (<[this := Timer_of_handles h]> (objs w))
                       (trace w ++ acquisitions h)).
      specialize (IH (S n) w1).
      destruct (create_timers os_timer (S n) rest w1) as [[res made] w2].
      destruct IH as (os & evs & Hres & Hnd & Hnew & Hlive & Hframe & Htr
                      & Hrel' & Hacq').
      cbn [fst snd] in *.
      assert (this ∉ made) as Hthis.
      { intros Hin. rewrite Forall_forall in Hnew.
        specialize (Hnew this Hin). unfold w1 in Hnew. cbn [objs] in Hnew.
        by rewrite lookup_insert_eq in Hnew. }
      exists (Timer_of_handles h :: os), (acquisitions h ++ evs).
      split; [done|]. split; [by constructor|]. split.
      { constructor; [done|]. eapply Forall_impl; [exact Hnew|].
        intros t Ht. unfold w1 in Ht. cbn [objs] in Ht.
        apply lookup_insert_None in Ht as [Ht _]. exact Ht. }
      split.
      { constructor; [|done]. rewrite (Hframe this Hthis).
        unfold w1. cbn [objs]. apply lookup_insert_eq. }
      split.
      { intros q Hq. apply not_elem_of_cons in Hq as [Hq1 Hq2].
        rewrite (Hframe q Hq2). unfold w1. cbn [objs].
        by rewrite lookup_insert_ne. }
      split.
      { rewrite Htr. unfold w1. cbn [trace]. by rewrite app_assoc. }
      split.
      { by rewrite omap_app, Hrel, Hrel'. }
      cbn [fmap list_fmap concat]. fold (fmap (M:=list) Timer_releases os).
      rewrite !omap_app. by apply Permutation_app.
    + exists [Timer_of_handles h], (acquisitions h).
      cbn [fst snd objs trace].
      split; [done|]. split; [apply NoDup_singleton|].
      split; [by constructor|]. split.
      { constructor; [apply lookup_insert_eq|constructor]. }
      split.
      { intros q Hq. apply not_elem_of_cons in Hq as [Hq _].
        by rewrite lookup_insert_ne. }
      split; [done|]. split; [done|].
      cbn [fmap list_fmap concat]. by rewrite app_nil_r.
Qed.
End PollerWaitFacts.


(** On the sample host, a wait with two clock subscriptions fails on the
    second: it returns the error, calls nothing, and has released the
    first timer and the channel of the second. *)
Example Poller_wait_second_timer_fails :
  Poller_wait sample_os_timer sample_os_wait
    [SubClock 0 1000 0 0 1; SubRead 3 2; SubClock 0 2000 0 0 3] (World ∅ [])
  = (Unexpected ERRNO_NOMEM, [],
     World ∅ [SysOpen 7; SysOpen 8; SysTimerCreate 21; SysOpen 9;
              SysTimerDelete 21; SysClose 8; SysClose 7; SysClose 9]).
Proof. vm_compute. reflexivity. Qed.

(** * Further properties of the header's code *)

(** ** Swapping through the store *)

Section SwapFacts.
Context {T A : Type} (f : member T A) `{!Lawful f}.
Implicit Types (m : gmap loc T).

Lemma std_swap_dangling a b m :
  m !! a = None ∨ m !! b = None → std_swap f a b m = m.
Proof.
  intros Hd. unfold std_swap, load.
  destruct (m !! a) as [oa|]; [|done].
  destruct (m !! b) as [ob|]; [|done]. by destruct Hd.
Qed.

Lemma std_swap_sym a b m : std_swap f a b m = std_swap f b a m.
Proof.
  destruct (decide (a = b)) as [->|Hne]; [done|].
  destruct (m !! a) as [oa|] eqn:Ha;
    [|by rewrite !std_swap_dangling by auto].
  destruct (m !! b) as [ob|] eqn:Hb;
    [|by rewrite !std_swap_dangling by auto].
  rewrite (std_swap_ne f a b m oa ob Hne Ha Hb).
  rewrite (std_swap_ne f b a m ob oa (not_eq_sym Hne) Hb Ha).
  by apply insert_insert_ne.
Qed.

Lemma std_swap_invol a b m : std_swap f a b (std_swap f a b m) = m.
Proof.
  destruct (decide (a = b)) as [->|Hne]; [by rewrite !std_swap_self|].
  destruct (m !! a) as [oa|] eqn:Ha;
    [|by rewrite !(std_swap_dangling a b m) by auto].
  destruct (m !! b) as [ob|] eqn:Hb;
    [|by rewrite !(std_swap_dangling a b m) by auto].
  rewrite (std_swap_ne f a b m oa ob Hne Ha Hb).
  erewrite (std_swap_ne f a b _ _ _ Hne) by store_lookup.
  rewrite !get_put, !put_put, !put_get.
  apply map_eq. intros q.
  destruct (decide (q = b)) as [->|Hqb]; [by rewrite lookup_insert_eq|].
  rewrite lookup_insert_ne by done.
  destruct (decide (q = a)) as [->|Hqa]; [by rewrite lookup_insert_eq|].
  by rewrite !lookup_insert_ne by done.
Qed.

(** A swap keeps the live addresses. *)
Lemma std_swap_live a b m p :
  is_Some (std_swap f a b m !! p) ↔ is_Some (m !! p).
Proof.
  unfold std_swap, load, store.
  destruct (m !! a) as [oa|]; [|done]. destruct (m !! b) as [ob|]; [|done].
  simpl. by rewrite !lookup_alter_is_Some.
Qed.
End SwapFacts.

(** ** Move assignment on any two addresses *)

Section MoveAssignFacts.
Context {T : Type}.
Implicit Types (w : world T).

Lemma FdHolder_move_assign_dangling (base : member T FdHolder) this rhs w :
  objs w !! this = None ∨ objs w !! rhs = None →
  FdHolder_move_assign base this rhs w = w.
Proof.
  intros Hd. unfold FdHolder_move_assign, upd.
  rewrite std_swap_dangling by done. apply world_eta.
Qed.

Lemma FdHolder_move_assign_sym (base : member T FdHolder) `{!Lawful base}
    this rhs w :
  FdHolder_move_assign base this rhs w = FdHolder_move_assign base rhs this w.
Proof.
  unfold FdHolder_move_assign, upd. by rewrite std_swap_sym by apply _.
Qed.

Lemma FdHolder_move_assign_invol (base : member T FdHolder) `{!Lawful base}
    this rhs w :
  FdHolder_move_assign base this rhs (FdHolder_move_assign base this rhs w)
  = w.
Proof.
  unfold FdHolder_move_assign, upd. cbn [objs trace].
  rewrite std_swap_invol by apply _. apply world_eta.
Qed.

Lemma TimerHolder_move_assign_dangling (self : member T TimerHolder)
    this rhs w :
  objs w !! this = None ∨ objs w !! rhs = None →
  TimerHolder_move_assign self this rhs w = w.
Proof.
  intros Hd. unfold TimerHolder_move_assign, upd.
  rewrite std_swap_dangling by done. apply world_eta.
Qed.

Lemma TimerHolder_move_assign_sym (self : member T TimerHolder)
    `{!Lawful self} this rhs w :
  TimerHolder_move_assign self this rhs w
  = TimerHolder_move_assign self rhs this w.
Proof.
  unfold TimerHolder_move_assign, upd. by rewrite std_swap_sym by apply _.
Qed.

Lemma TimerHolder_move_assign_invol (self : member T TimerHolder)
    `{!Lawful self} this rhs w :
  TimerHolder_move_assign self this rhs
    (TimerHolder_move_assign self this rhs w) = w.
Proof.
  unfold TimerHolder_move_assign, upd. cbn [objs trace].
  rewrite std_swap_invol by apply _. apply world_eta.
Qed.

Lemma DirHolder_move_assign_dangling (self : member T DirHolder)
    this rhs w :
  objs w !! this = None ∨ objs w !! rhs = None →
  DirHolder_move_assign self this rhs w = w.
Proof.
  intros Hd. unfold DirHolder_move_assign, upd. cbn [objs trace].
  rewrite (std_swap_dangling (self ⋅ fld_Dir)) by done.
  rewrite std_swap_dangling by done. apply world_eta.
Qed.

Lemma DirHolder_move_assign_sym (self : member T DirHolder) `{!Lawful self}
    this rhs w :
  DirHolder_move_assign self this rhs w
  = DirHolder_move_assign self rhs this w.
Proof.
  unfold DirHolder_move_assign, upd. cbn [objs trace].
  rewrite (std_swap_sym (self ⋅ fld_Dir) this rhs).
  by rewrite (std_swap_sym (self ⋅ fld_Cookie) this rhs).
Qed.

Lemma DirHolder_move_assign_invol (self : member T DirHolder)
    `{!Lawful self} this rhs w :
  DirHolder_move_assign self this rhs
    (DirHolder_move_assign self this rhs w) = w.
Proof.
  destruct (decide (this = rhs)) as [->|Hne].
  { by rewrite !DirHolder_move_assign_self. }
  destruct (objs w !! this) as [a|] eqn:Ha;
    [|by rewrite !(DirHolder_move_assign_dangling self this rhs w) by auto].
  destruct (objs w !! rhs) as [b|] eqn:Hb;
    [|by rewrite !(DirHolder_move_assign_dangling self this rhs w) by auto].
  rewrite (DirHolder_move_assign_ne self _ _ _ _ _ Hne Ha Hb).
  erewrite (DirHolder_move_assign_ne self _ _ _ _ _ Hne)
    by (cbn [objs]; store_lookup).
  destruct w as [m tr]. cbn [objs trace] in *. f_equal.
  rewrite !get_put, !put_put.
  assert (∀ x y : DirHolder,
            DirHolder_take (DirHolder_take x y) (DirHolder_take y x) = x)
    as Htake by (by intros [] []).
  rewrite !Htake, !put_get.
  apply map_eq. intros q.
  destruct (decide (q = rhs)) as [->|Hqr]; [by rewrite lookup_insert_eq|].
  rewrite lookup_insert_ne by done.
  destruct (decide (q = this)) as [->|Hqt]; [by rewrite lookup_insert_eq|].
  by rewrite !lookup_insert_ne by done.
Qed.
End MoveAssignFacts.

(** X3. The move assignment of a holder is an exchange: [a = std::move(b)]
    does to the store what [b = std::move(a)] does, and done twice it
    leaves every holder as it was; it never makes a system call. This holds
    for any two addresses, equal or not. *)
Theorem move_assign_is_a_symmetric_exchange :
  (∀ (w : world FdHolder) a b,
     FdHolder_move_assign whole a b w = FdHolder_move_assign whole b a w ∧
     FdHolder_move_assign whole a b (FdHolder_move_assign whole a b w) = w ∧
     trace (FdHolder_move_assign whole a b w) = trace w) ∧
  (∀ (w : world DirHolder) a b,
     DirHolder_move_assign whole a b w = DirHolder_move_assign whole b a w ∧
     DirHolder_move_assign whole a b (DirHolder_move_assign whole a b w) = w ∧
     trace (DirHolder_move_assign whole a b w) = trace w) ∧
  (∀ (w : world TimerHolder) a b,
     TimerHolder_move_assign whole a b w
       = TimerHolder_move_assign whole b a w ∧
     TimerHolder_move_assign whole a b (TimerHolder_move_assign whole a b w)
       = w ∧
     trace (TimerHolder_move_assign whole a b w) = trace w).
Proof.
  repeat apply conj; intros w a b; repeat apply conj; try done.
  - apply FdHolder_move_assign_sym, _.
  - apply FdHolder_move_assign_invol, _.
  - apply DirHolder_move_assign_sym, _.
  - apply DirHolder_move_assign_invol, _.
  - apply TimerHolder_move_assign_sym, _.
  - apply TimerHolder_move_assign_invol, _.
Qed.

(** ** release *)

Lemma FdHolder_release_live (w : world FdHolder) this o :
  objs w !! this = Some o →
  FdHolder_release whole this w
  = Some (Fd o, World (<[this := FdHolder_default]> (objs w)) (trace w)).
Proof.
  intros Ho. unfold FdHolder_release, std_exchange.
  rewrite (load_Some _ _ _ _ Ho). cbn.
  by rewrite (store_Some _ _ _ _ _ Ho).
Qed.

(** X1. [release()] on a live holder returns the descriptor it held and
    leaves the holder empty: [Fd == -1], [ok()] false, no system call made
    and no other holder touched. A second [release()] returns [-1] and
    changes nothing. *)
Theorem FdHolder_release_hands_over :
  ∀ (w : world FdHolder) this o,
    objs w !! this = Some o →
    ∃ w', FdHolder_release whole this w = Some (Fd o, w') ∧
          objs w' = <[this := {| Fd := -1 |}]> (objs w) ∧
          trace w' = trace w ∧
          FdHolder_ok whole this w' = false ∧
          FdHolder_release whole this w' = Some (-1, w').
Proof.
  intros w this o Ho. eexists. split; [by apply FdHolder_release_live|].
  cbn [objs trace]. repeat split.
  - unfold FdHolder_ok, load. cbn [objs]. by rewrite lookup_insert_eq.
  - erewrite FdHolder_release_live by (cbn [objs]; apply lookup_insert_eq).
    cbn [objs trace]. by rewrite insert_insert_eq.
Qed.

Lemma FdHolder_release_hands_over_witness :
  ∃ w', FdHolder_release whole 1 two_fds = Some (5, w') ∧
        FdHolder_ok whole 1 w' = false ∧
        FdHolder_ok whole 2 w' = true ∧
        trace w' = [].
Proof.
  destruct (FdHolder_release_hands_over two_fds 1%positive {| Fd := 5 |}
              eq_refl) as (w' & Hrel & Hobjs & Htr & Hok & _).
  exists w'. repeat split; try assumption.
  unfold FdHolder_ok, load. rewrite Hobjs. reflexivity.
Defined.

(** X2. Constructing a holder from what another one releases,
    [FdHolder b(a.release())], does the same as move-constructing it,
    [FdHolder b(std::move(a))]. *)
Theorem construct_from_release_is_move_construct :
  ∀ (w : world FdHolder) this a o,
    objs w !! this = None → objs w !! a = Some o →
    FdHolder_from_release this a w = FdHolder_new this a w.
Proof.
  intros w this a o Hthis Ha. assert (this ≠ a) as Hne by congruence.
  unfold FdHolder_from_release.
  rewrite (FdHolder_release_live _ _ _ Ha), (FdHolder_new_fresh _ _ _ _ Hthis Ha).
  unfold FdHolder_from_fd, allocate, upd. cbn [objs trace].
  erewrite store_Some by apply lookup_insert_eq.
  rewrite insert_insert_eq. by destruct o.
Qed.

Lemma construct_from_release_is_move_construct_witness :
  FdHolder_from_release 3 2 two_fds = FdHolder_new 3 2 two_fds ∧
  objs (FdHolder_from_release 3 2 two_fds) !! 3%positive = Some {| Fd := 3 |}.
Proof.
  split; [|reflexivity].
  apply (construct_from_release_is_move_construct two_fds 3%positive
           2%positive {| Fd := 3 |}); reflexivity.
Defined.

(** ** Exclusive ownership *)

Section Exclusive.
Context {T H : Type} `{EqDecision H} (handle : T → H) (valid : H → bool).
Implicit Types (m : gmap loc T).

Lemma exclusive_lookup m :
  exclusive handle valid m ↔
  ∀ p q o1 o2, m !! p = Some o1 → m !! q = Some o2 →
               handle o1 = handle o2 → valid (handle o1) = true → p = q.
Proof.
  unfold exclusive. rewrite map_Forall_lookup. split.
  - intros Hx p q o1 o2 Hp Hq. specialize (Hx p o1 Hp).
    rewrite map_Forall_lookup in Hx. by apply Hx.
  - intros Hx p o1 Hp. rewrite map_Forall_lookup. intros q o2 Hq.
    by apply Hx.
Qed.

(** If every valid handle of [m'] sits in [m] at the address [π] names,
    and [π] tells the holders of valid handles apart, then [m'] is
    exclusive when [m] is. *)
Lemma exclusive_via (π : loc → loc) m m' :
  (∀ p o', m' !! p = Some o' → valid (handle o') = true →
           ∃ o, m !! π p = Some o ∧ handle o = handle o') →
  (∀ p q o1 o2, m' !! p = Some o1 → m' !! q = Some o2 →
                valid (handle o1) = true → valid (handle o2) = true →
                π p = π q → p = q) →
  exclusive handle valid m → exclusive handle valid m'.
Proof.
  rewrite !exclusive_lookup. intros Hfrom Hinj Hx p q o1 o2 Hp Hq Heq Hv.
  assert (valid (handle o2) = true) as Hv2 by (by rewrite <- Heq).
  destruct (Hfrom p o1 Hp Hv) as (o & Ho & Hh).
  destruct (Hfrom q o2 Hq Hv2) as (o' & Ho' & Hh').
  apply (Hinj p q o1 o2 Hp Hq Hv Hv2).
  apply (Hx _ _ o o' Ho Ho'); congruence.
Qed.

(** Two live holders exchange their handles. *)
Lemma exclusive_exchange m a b oa ob oa' ob' :
  a ≠ b → m !! a = Some oa → m !! b = Some ob →
  handle oa' = handle ob → handle ob' = handle oa →
  exclusive handle valid m →
  exclusive handle valid (<[b := ob']> (<[a := oa']> m)).
Proof.
  intros Hne Ha Hb Ha' Hb'.
  apply (exclusive_via
           (λ p, if decide (p = a) then b else if decide (p = b) then a else p)).
  - intros p o' Hp _. repeat case_decide; simplify_map_eq; eauto.
  - intros p q o1 o2 _ _ _ _. repeat case_decide; congruence.
Qed.

(** A holder gets an invalid handle, or a new holder with an invalid
    handle appears. *)
Lemma exclusive_put_invalid m p o' :
  valid (handle o') = false →
  exclusive handle valid m → exclusive handle valid (<[p := o']> m).
Proof.
  intros Hinv. apply (exclusive_via (λ p, p)); [|done].
  intros q o Hq Hv. destruct (decide (q = p)) as [->|Hne].
  - rewrite lookup_insert_eq in Hq. congruence.
  - rewrite lookup_insert_ne in Hq by done. eauto.
Qed.

(** A new holder takes the handle of [rhs], which is left with an invalid
    one. *)
Lemma exclusive_transfer m this rhs b o1 o2 :
  m !! this = None → m !! rhs = Some b →
  handle o1 = handle b → valid (handle o2) = false →
  exclusive handle valid m →
  exclusive handle valid (<[this := o1]> (<[rhs := o2]> m)).
Proof.
  intros Hthis Hrhs H1 H2. assert (this ≠ rhs) as Hne by congruence.
  apply (exclusive_via (λ p, if decide (p = this) then rhs else p)).
  - intros p o' Hp Hv. case_decide; simplify_map_eq; [eauto|].
    destruct (decide (p = rhs)) as [->|]; simplify_map_eq; [congruence|eauto].
  - intros p q o1' o2' Hp Hq Hv1 Hv2 Hpi.
    repeat case_decide; simplify_map_eq; try done; congruence.
Qed.
End Exclusive.

(** Move construction from an address that holds no object only leaves the
    new, empty holder. *)
Lemma FdHolder_new_dangling (w : world FdHolder) this rhs :
  objs w !! rhs = None →
  FdHolder_new this rhs w
  = World (<[this := FdHolder_default]> (objs w)) (trace w).
Proof.
  intros Hrhs. unfold FdHolder_new, construct_from, FdHolder_move_ctor,
    std_exchange, allocate, upd, load. cbn [objs trace].
  destruct (decide (rhs = this)) as [->|Hne].
  - rewrite lookup_insert_eq. cbn.
    rewrite (store_Some (whole ⋅ fld_Fd) this (-1)
               (<[this:=FdHolder_default]> (objs w)) FdHolder_default)
      by apply lookup_insert_eq.
    rewrite insert_insert_eq.
    erewrite store_Some by apply lookup_insert_eq.
    by rewrite insert_insert_eq.
  - rewrite lookup_insert_ne by done. by rewrite Hrhs.
Qed.

Lemma DirHolder_new_dangling (w : world DirHolder) this rhs :
  objs w !! rhs = None →
  DirHolder_new this rhs w
  = World (<[this := DirHolder_default]> (objs w)) (trace w).
Proof.
  intros Hrhs. unfold DirHolder_new, construct_from.
  set (w0 := allocate this DirHolder_default w).
  assert (upd (store whole this DirHolder_default) w0 = w0) as Hw0.
  { unfold w0, allocate, upd. cbn [objs trace].
    erewrite store_Some by apply lookup_insert_eq.
    by rewrite insert_insert_eq. }
  change (DirHolder_move_ctor whole this rhs w0)
    with (DirHolder_move_assign whole this rhs
            (upd (store whole this DirHolder_default) w0)).
  rewrite Hw0. destruct (decide (rhs = this)) as [->|Hne].
  - by rewrite DirHolder_move_assign_self by apply _.
  - rewrite DirHolder_move_assign_dangling; [done|]. right.
    unfold w0, allocate, upd. cbn [objs]. by rewrite lookup_insert_ne.
Qed.

Lemma TimerHolder_new_dangling (w : world TimerHolder) this rhs :
  objs w !! rhs = None →
  TimerHolder_new this rhs w
  = World (<[this := TimerHolder_default]> (objs w)) (trace w).
Proof.
  intros Hrhs. unfold TimerHolder_new, construct_from.
  set (w0 := allocate this TimerHolder_default w).
  assert (upd (store whole this TimerHolder_default) w0 = w0) as Hw0.
  { unfold w0, allocate, upd. cbn [objs trace].
    erewrite store_Some by apply lookup_insert_eq.
    by rewrite insert_insert_eq. }
  change (TimerHolder_move_ctor whole this rhs w0)
    with (TimerHolder_move_assign whole this rhs
            (upd (store whole this TimerHolder_default) w0)).
  rewrite Hw0. destruct (decide (rhs = this)) as [->|Hne].
  - by rewrite TimerHolder_move_assign_self by apply _.
  - rewrite TimerHolder_move_assign_dangling; [done|]. right.
    unfold w0, allocate, upd. cbn [objs]. by rewrite lookup_insert_ne.
Qed.

(** One move keeps the holders exclusive and makes no system call. *)
Lemma FdHolder_move_exclusive (w : world FdHolder) op :
  exclusive Fd valid_fd (objs w) →
  exclusive Fd valid_fd (objs (FdHolder_move w op)) ∧
  trace (FdHolder_move w op) = trace w.
Proof.
  intros Hx. destruct op as [this rhs|rhs]; cbn [FdHolder_move].
  - destruct (decide (this = rhs)) as [->|Hne].
    { by rewrite FdHolder_move_assign_self by apply _. }
    destruct (objs w !! this) as [a|] eqn:Ha;
      [|by rewrite FdHolder_move_assign_dangling by auto].
    destruct (objs w !! rhs) as [b|] eqn:Hb;
      [|by rewrite FdHolder_move_assign_dangling by auto].
    rewrite (FdHolder_move_assign_ne whole _ _ _ _ _ Hne Ha Hb).
    cbn [objs trace]. split; [|done].
    by apply (exclusive_exchange Fd valid_fd _ this rhs a b).
  - pose proof (fresh_loc_free w) as Hfresh.
    destruct (objs w !! rhs) as [b|] eqn:Hb.
    + rewrite (FdHolder_new_fresh _ _ _ _ Hfresh Hb). cbn [objs trace].
      split; [|done].
      by apply (exclusive_transfer Fd valid_fd _ _ rhs b).
    + rewrite (FdHolder_new_dangling _ _ _ Hb). cbn [objs trace].
      split; [|done]. by apply exclusive_put_invalid.
Qed.

Lemma DirHolder_move_exclusive (w : world DirHolder) op :
  exclusive Dir valid_dir (objs w) →
  exclusive Dir valid_dir (objs (DirHolder_move w op)) ∧
  trace (DirHolder_move w op) = trace w.
Proof.
  intros Hx. destruct op as [this rhs|rhs]; cbn [DirHolder_move].
  - destruct (decide (this = rhs)) as [->|Hne].
    { by rewrite DirHolder_move_assign_self by apply _. }
    destruct (objs w !! this) as [a|] eqn:Ha;
      [|by rewrite DirHolder_move_assign_dangling by auto].
    destruct (objs w !! rhs) as [b|] eqn:Hb;
      [|by rewrite DirHolder_move_assign_dangling by auto].
    rewrite (DirHolder_move_assign_ne whole _ _ _ _ _ Hne Ha Hb).
    cbn [objs trace]. split; [|done].
    by apply (exclusive_exchange Dir valid_dir _ this rhs a b).
  - pose proof (fresh_loc_free w) as Hfresh.
    destruct (objs w !! rhs) as [b|] eqn:Hb.
    + rewrite (DirHolder_new_fresh _ _ _ _ Hfresh Hb). cbn [objs trace].
      split; [|done].
      by apply (exclusive_transfer Dir valid_dir _ _ rhs b).
    + rewrite (DirHolder_new_dangling _ _ _ Hb). cbn [objs trace].
      split; [|done]. by apply exclusive_put_invalid.
Qed.

Lemma TimerHolder_move_exclusive (w : world TimerHolder) op :
  exclusive Id valid_id (objs w) →
  exclusive Id valid_id (objs (TimerHolder_move w op)) ∧
  trace (TimerHolder_move w op) = trace w.
Proof.
  intros Hx. destruct op as [this rhs|rhs]; cbn [TimerHolder_move].
  - destruct (decide (this = rhs)) as [->|Hne].
    { by rewrite TimerHolder_move_assign_self by apply _. }
    destruct (objs w !! this) as [a|] eqn:Ha;
      [|by rewrite TimerHolder_move_assign_dangling by auto].
    destruct (objs w !! rhs) as [b|] eqn:Hb;
      [|by rewrite TimerHolder_move_assign_dangling by auto].
    rewrite (TimerHolder_move_assign_ne whole _ _ _ _ _ Hne Ha Hb).
    cbn [objs trace]. split; [|done].
    by apply (exclusive_exchange Id valid_id _ this rhs a b).
  - pose proof (fresh_loc_free w) as Hfresh.
    destruct (objs w !! rhs) as [b|] eqn:Hb.
    + rewrite (TimerHolder_new_fresh _ _ _ _ Hfresh Hb). cbn [objs trace].
      split; [|done].
      by apply (exclusive_transfer Id valid_id _ _ rhs b).
    + rewrite (TimerHolder_new_dangling _ _ _ Hb). cbn [objs trace].
      split; [|done]. by apply exclusive_put_invalid.
Qed.

(** X4. Descriptor holders that hold pairwise different valid descriptors
    still do so after any series of move assignments, move constructions
    and [release()] calls, between any addresses; and the series makes no
    system call. *)
Theorem FdHolder_moves_keep_descriptors_exclusive :
  ∀ (ops : list fd_op) (w : world FdHolder),
    exclusive Fd valid_fd (objs w) →
    exclusive Fd valid_fd (objs (foldl FdHolder_step w ops)) ∧
    trace (foldl FdHolder_step w ops) = trace w.
Proof.
  induction ops as [|op ops IH]; intros w Hx; [done|]. cbn [foldl].
  assert (exclusive Fd valid_fd (objs (FdHolder_step w op)) ∧
          trace (FdHolder_step w op) = trace w) as [Hx' Htr].
  { destruct op as [op|this]; cbn [FdHolder_step].
    - by apply FdHolder_move_exclusive.
    - destruct (objs w !! this) as [o|] eqn:Ho.
      + rewrite (FdHolder_release_live _ _ _ Ho). cbn [objs trace].
        split; [|done]. by apply exclusive_put_invalid.
      + unfold FdHolder_release, std_exchange, load. by rewrite Ho. }
  destruct (IH _ Hx') as [Hx'' Htr']. split; [done|congruence].
Qed.

Lemma FdHolder_moves_keep_descriptors_exclusive_witness :
  exclusive Fd valid_fd
    (objs (foldl FdHolder_step two_fds
             [FdMove (MoveAssign 1 2); FdMove (MoveConstruct 1);
              FdRelease 2; FdMove (MoveAssign 3 2)])) ∧
  trace (foldl FdHolder_step two_fds
           [FdMove (MoveAssign 1 2); FdMove (MoveConstruct 1);
            FdRelease 2; FdMove (MoveAssign 3 2)]) = [].
Proof.
  apply (FdHolder_moves_keep_descriptors_exclusive
           [FdMove (MoveAssign 1 2); FdMove (MoveConstruct 1);
            FdRelease 2; FdMove (MoveAssign 3 2)] two_fds).
  unfold exclusive. apply (bool_decide_unpack _). vm_compute. exact I.
Defined.

(** X5. The same for directory streams and for timers: holders with
    pairwise different streams (timer ids) still have pairwise different
    ones after any series of move assignments and move constructions, and
    the series makes no system call. *)
Theorem Dir_and_Timer_moves_keep_handles_exclusive :
  (∀ (ops : list move_op) (w : world DirHolder),
     exclusive Dir valid_dir (objs w) →
     exclusive Dir valid_dir (objs (foldl DirHolder_move w ops)) ∧
     trace (foldl DirHolder_move w ops) = trace w) ∧
  (∀ (ops : list move_op) (w : world TimerHolder),
     exclusive Id valid_id (objs w) →
     exclusive Id valid_id (objs (foldl TimerHolder_move w ops)) ∧
     trace (foldl TimerHolder_move w ops) = trace w).
Proof.
  split.
  - induction ops as [|op ops IH]; intros w Hx; [done|]. cbn [foldl].
    destruct (DirHolder_move_exclusive w op Hx) as [Hx' Htr].
    destruct (IH _ Hx') as [Hx'' Htr']. split; [done|congruence].
  - induction ops as [|op ops IH]; intros w Hx; [done|]. cbn [foldl].
    destruct (TimerHolder_move_exclusive w op Hx) as [Hx' Htr].
    destruct (IH _ Hx') as [Hx'' Htr']. split; [done|congruence].
Qed.

Lemma Dir_and_Timer_moves_keep_handles_exclusive_witness :
  exclusive Dir valid_dir
    (objs (foldl DirHolder_move two_dirs
             [MoveConstruct 2; MoveAssign 1 3; MoveAssign 2 1])) ∧
  exclusive Id valid_id
    (objs (foldl TimerHolder_move two_timers
             [MoveAssign 2 1; MoveConstruct 1; MoveAssign 3 3])).
Proof.
  destruct Dir_and_Timer_moves_keep_handles_exclusive as [Hdir Htimer].
  split.
  - apply (Hdir [MoveConstruct 2; MoveAssign 1 3; MoveAssign 2 1] two_dirs).
    unfold exclusive. apply (bool_decide_unpack _). vm_compute. exact I.
  - apply (Htimer [MoveAssign 2 1; MoveConstruct 1; MoveAssign 3 3]
             two_timers).
    unfold exclusive. apply (bool_decide_unpack _). vm_compute. exact I.
Defined.

(** ** Buffers stay, streams travel with their cookies *)

Lemma DirHolder_moved_refl m : DirHolder_moved m m.
Proof.
  split; [done|]. intros p o' Hp. rewrite Hp. split; [done|]. right. eauto.
Qed.

Lemma DirHolder_moved_trans m1 m2 m3 :
  DirHolder_moved m1 m2 → DirHolder_moved m2 m3 → DirHolder_moved m1 m3.
Proof.
  intros [Hlive12 H12] [Hlive23 H23]. split; [by auto|].
  intros p o3 Hp3. destruct (H23 p o3 Hp3) as [Hbuf Hpair]. split.
  - rewrite Hbuf. destruct (m2 !! p) as [o2|] eqn:Hp2.
    + by destruct (H12 p o2 Hp2) as [-> _].
    + destruct (m1 !! p) as [o1|] eqn:Hp1; [|done].
      destruct (Hlive12 p) as [o2 Ho2]; [by eauto|]. congruence.
  - destruct Hpair as [Hnull|(q & o2 & Hq2 & HD & HC)]; [by left|].
    destruct (H12 q o2 Hq2) as [_ [[HD0 HC0]|(q1 & o1 & Hq1 & HD1 & HC1)]].
    + left. split; congruence.
    + right. exists q1, o1. repeat split; congruence.
Qed.

Lemma DirHolder_move_moved (w : world DirHolder) op :
  DirHolder_moved (objs w) (objs (DirHolder_move w op)).
Proof.
  destruct op as [this rhs|rhs]; cbn [DirHolder_move].
  - destruct (decide (this = rhs)) as [->|Hne].
    { rewrite DirHolder_move_assign_self by apply _.
      apply DirHolder_moved_refl. }
    destruct (objs w !! this) as [a|] eqn:Ha;
      [|rewrite DirHolder_move_assign_dangling by auto;
        apply DirHolder_moved_refl].
    destruct (objs w !! rhs) as [b|] eqn:Hb;
      [|rewrite DirHolder_move_assign_dangling by auto;
        apply DirHolder_moved_refl].
    rewrite (DirHolder_move_assign_ne whole _ _ _ _ _ Hne Ha Hb).
    cbn [objs]. split.
    + intros p Hp. rewrite !lookup_insert_is_Some'. auto.
    + intros p o' Hp.
      destruct (decide (p = rhs)) as [->|Hpr];
        [|destruct (decide (p = this)) as [->|Hpt]]; simplify_map_eq.
      * split; [done|]. right. by exists this, a.
      * split; [done|]. right. by exists rhs, b.
      * split; [done|]. right. eauto.
  - pose proof (fresh_loc_free w) as Hfresh. set (this := fresh_loc w) in *.
    destruct (objs w !! rhs) as [b|] eqn:Hb.
    + assert (this ≠ rhs) as Hne by congruence.
      rewrite (DirHolder_new_fresh _ _ _ _ Hfresh Hb). cbn [objs]. split.
      * intros p Hp. rewrite !lookup_insert_is_Some'. auto.
      * intros p o' Hp.
        destruct (decide (p = this)) as [->|Hpt];
          [|destruct (decide (p = rhs)) as [->|Hpr]]; simplify_map_eq.
        -- split; [done|]. right. by exists rhs, b.
        -- split; [done|]. by left.
        -- split; [done|]. right. eauto.
    + rewrite (DirHolder_new_dangling _ _ _ Hb). cbn [objs]. split.
      * intros p Hp. rewrite lookup_insert_is_Some'. auto.
      * intros p o' Hp.
        destruct (decide (p = this)) as [->|Hpt]; simplify_map_eq.
        -- split; [done|]. by left.
        -- split; [done|]. right. eauto.
Qed.

(** X6. Through any series of move assignments and move constructions of
    directory holders, no [Buffer] ever changes holder: every holder keeps
    the bytes it had, and a holder constructed on the way has none. What
    moves is the stream together with its cookie: a holder ends with
    [nullptr] and cookie [0], or with the stream and the cookie that one
    holder had together at the start. *)
Theorem DirHolder_moves_leave_buffers_in_place :
  ∀ (ops : list move_op) (w : world DirHolder),
    DirHolder_moved (objs w) (objs (foldl DirHolder_move w ops)).
Proof.
  induction ops as [|op ops IH]; intros w; [apply DirHolder_moved_refl|].
  cbn [foldl]. eapply DirHolder_moved_trans; [apply DirHolder_move_moved|].
  apply IH.
Qed.

(** ** INode: more on the defaulted move assignment *)

Lemma optional_move_self {T A} (f : member T (option A)) `{!Lawful f}
    this (m : gmap loc T) :
  optional_move f this this m = m.
Proof.
  unfold optional_move. destruct (m !! this) as [o|] eqn:Ho.
  - rewrite (load_Some _ _ _ _ Ho). by apply store_same.
  - by rewrite (load_None _ _ _ Ho).
Qed.

(** X7. Move-assigning an inode to itself changes nothing: not the
    descriptor, not the cached metadata, not the directory stream, and no
    system call is made. *)
Theorem INode_self_move_assign_is_noop :
  ∀ (w : world INode) a, INode_move_assign a a w = w.
Proof.
  intros w a. unfold INode_move_assign.
  rewrite FdHolder_move_assign_self by apply _.
  unfold upd at 1. rewrite optional_move_self by apply _.
  rewrite world_eta. apply DirHolder_move_assign_self, _.
Qed.

(** X8. Move assignment between two inodes exchanges the descriptors and
    the streams with their cookies, but not the cached metadata: the target
    gets a copy of the source's cache and the source keeps its own. So the
    moved-from inode holds the descriptor the target had together with the
    metadata of the descriptor it gave away, and the cache the target had
    is gone. *)
Theorem INode_move_assign_copies_Stat :
  ∀ (w : world INode) this rhs a b,
    this ≠ rhs → objs w !! this = Some a → objs w !! rhs = Some b →
    let m' := objs (INode_move_assign this rhs w) in
    load (base_FdHolder ⋅ fld_Fd) this m' = Some (Fd (INode_FdHolder b)) ∧
    load (base_FdHolder ⋅ fld_Fd) rhs m' = Some (Fd (INode_FdHolder a)) ∧
    load (fld_INode_Dir ⋅ fld_Dir) this m' = Some (Dir (INode_Dir b)) ∧
    load (fld_INode_Dir ⋅ fld_Dir) rhs m' = Some (Dir (INode_Dir a)) ∧
    load fld_Stat this m' = Some (Stat b) ∧
    load fld_Stat rhs m' = Some (Stat b).
Proof.
  intros w this rhs a b Hne Ha Hb m'. subst m'.
  rewrite (INode_move_assign_ne _ _ _ _ _ Hne Ha Hb). unfold load.
  cbn [objs]. rewrite lookup_insert_eq, lookup_insert_ne, lookup_insert_eq
    by done.
  done.
Qed.

Lemma INode_move_assign_copies_Stat_witness :
  load (base_FdHolder ⋅ fld_Fd) 2 (objs (INode_move_assign 1 2 two_inodes))
    = Some 5 ∧
  load fld_Stat 2 (objs (INode_move_assign 1 2 two_inodes))
    = Some (Some {| st_ino := 77; st_mode := 33188; st_uid := 0; st_gid := 0;
                    st_size := 120 |}) ∧
  load fld_Stat 1 (objs (INode_move_assign 1 2 two_inodes))
    = Some (Some {| st_ino := 77; st_mode := 33188; st_uid := 0; st_gid := 0;
                    st_size := 120 |}).
Proof.
  destruct (INode_move_assign_copies_Stat two_inodes 1%positive 2%positive
              {| INode_FdHolder := {| Fd := 5 |}; Stat := None;
                 INode_Dir := {| Dir := 4096; Cookie := 0; Buffer := [] |} |}
              {| INode_FdHolder := {| Fd := 3 |};
                 Stat := Some {| st_ino := 77; st_mode := 33188;
                                 st_uid := 0; st_gid := 0; st_size := 120 |};
                 INode_Dir := DirHolder_default |}
              ltac:(lia) eq_refl eq_refl)
    as (_ & Hfd & _ & _ & Hst1 & Hst2).
  repeat split; assumption.
Defined.

(** X9. Moving an inode into another and back, [a = std::move(b)] then
    [b = std::move(a)], restores [b] entirely and restores the descriptor
    and the stream of [a], but leaves [a] with the cached metadata of [b].
    The two moves undo each other exactly when the two caches were equal;
    they make no system call. *)
Theorem INode_move_there_and_back :
  ∀ (w : world INode) this rhs a b,
    this ≠ rhs → objs w !! this = Some a → objs w !! rhs = Some b →
    let w' := INode_move_assign rhs this (INode_move_assign this rhs w) in
    objs w' = <[this := {| INode_FdHolder := INode_FdHolder a;
                           Stat := Stat b;
                           INode_Dir := INode_Dir a |}]> (objs w) ∧
    trace w' = trace w ∧
    (w' = w ↔ Stat a = Stat b).
Proof.
  intros w this rhs a b Hne Ha Hb w'. subst w'.
  rewrite (INode_move_assign_ne _ _ _ _ _ Hne Ha Hb).
  erewrite (INode_move_assign_ne _ rhs this) by (cbn [objs]; store_lookup).
  cbn [objs trace INode_FdHolder Stat INode_Dir].
  assert (∀ x y : DirHolder,
            DirHolder_take (DirHolder_take x y) (DirHolder_take y x) = x)
    as Htake by (by intros [] []).
  rewrite !Htake.
  assert (<[rhs := {| INode_FdHolder := INode_FdHolder b; Stat := Stat b;
                      INode_Dir := INode_Dir b |}]>
            (<[this := {| INode_FdHolder := INode_FdHolder a; Stat := Stat b;
                          INode_Dir := INode_Dir a |}]>
               (<[this := {| INode_FdHolder := INode_FdHolder b;
                             Stat := Stat b;
                             INode_Dir := DirHolder_take (INode_Dir b)
                                            (INode_Dir a) |}]>
                  (<[rhs := {| INode_FdHolder := INode_FdHolder a;
                               Stat := Stat b;
                               INode_Dir := DirHolder_take (INode_Dir a)
                                              (INode_Dir b) |}]> (objs w))))
          = <[this := {| INode_FdHolder := INode_FdHolder a; Stat := Stat b;
                         INode_Dir := INode_Dir a |}]> (objs w)) as ->.
  { apply map_eq. intros q.
    destruct (decide (q = rhs)) as [->|Hqr];
      [|destruct (decide (q = this)) as [->|Hqt]]; simplify_map_eq;
      [by destruct b|done|done]. }
  split; [done|]. split; [done|]. split.
  - intros Heq. apply (f_equal (λ w0, Stat <$> objs w0 !! this)) in Heq.
    cbn [objs] in Heq. rewrite lookup_insert_eq, Ha in Heq. cbn in Heq.
    congruence.
  - intros Hst. destruct w as [m tr]. cbn [objs trace] in *. f_equal.
    rewrite <- Hst. apply insert_id. rewrite Ha. by destruct a.
Qed.

Lemma INode_move_there_and_back_witness :
  load fld_Stat 1
    (objs (INode_move_assign 2 1 (INode_move_assign 1 2 two_inodes)))
  = Some (Some {| st_ino := 77; st_mode := 33188; st_uid := 0; st_gid := 0;
                  st_size := 120 |}) ∧
  load (base_FdHolder ⋅ fld_Fd) 1
    (objs (INode_move_assign 2 1 (INode_move_assign 1 2 two_inodes)))
  = Some 5.
Proof.
  destruct (INode_move_there_and_back two_inodes 1%positive 2%positive
              {| INode_FdHolder := {| Fd := 5 |}; Stat := None;
                 INode_Dir := {| Dir := 4096; Cookie := 0; Buffer := [] |} |}
              {| INode_FdHolder := {| Fd := 3 |};
                 Stat := Some {| st_ino := 77; st_mode := 33188;
                                 st_uid := 0; st_gid := 0; st_size := 120 |};
                 INode_Dir := DirHolder_default |}
              ltac:(lia) eq_refl eq_refl) as (Hobjs & _ & _).
  rewrite Hobjs. split; reflexivity.
Defined.

(** ** Poller::Timer and Poller: the defaulted moves *)

Global Instance base_Poller_lawful {E} : Lawful (@base_Poller E).
Proof. split; by try intros []. Qed.
Global Instance fld_Events_lawful {E} : Lawful (@fld_Events E).
Proof. split; by try intros []. Qed.
Global Instance fld_Timers_lawful {E} : Lawful (@fld_Timers E).
Proof. split; by try intros []. Qed.

Lemma Timer_move_ctor_fresh (w : world Timer) this rhs b :
  objs w !! this = None → objs w !! rhs = Some b →
  Timer_new this rhs w
  = World (<[this := b]> (<[rhs := Timer_default]> (objs w))) (trace w).
Proof.
  intros Hthis Hrhs.
  destruct (allocate_other this rhs Timer_default b w Hthis Hrhs)
    as [Hne Hrhs'].
  unfold Timer_new, construct_from, Timer_move_ctor.
  rewrite (FdHolder_move_ctor_ne base_Timer _ _ _ _ _ Hne
             (allocate_this _ _ _) Hrhs').
  erewrite (FdHolder_move_ctor_ne fld_Notify _ _ _ _ _ Hne)
    by (cbn [objs]; store_lookup).
  erewrite (TimerHolder_move_ctor_ne fld_TimerId _ _ _ _ _ Hne)
    by (cbn [objs]; store_lookup).
  simpl. f_equal. store_ext. by destruct b.
Qed.

Lemma Timer_move_assign_ne (w : world Timer) this rhs a b :
  this ≠ rhs → objs w !! this = Some a → objs w !! rhs = Some b →
  Timer_move_assign this rhs w
  = World (<[rhs := a]> (<[this := b]> (objs w))) (trace w).
Proof.
  intros Hne Ha Hb. unfold Timer_move_assign.
  rewrite (FdHolder_move_assign_ne base_Timer _ _ _ _ _ Hne Ha Hb).
  erewrite (FdHolder_move_assign_ne fld_Notify _ _ _ _ _ Hne)
    by (cbn [objs]; store_lookup).
  erewrite (TimerHolder_move_assign_ne fld_TimerId _ _ _ _ _ Hne)
    by (cbn [objs]; store_lookup).
  simpl. f_equal. store_ext; [by destruct a|by destruct b].
Qed.

Lemma Timer_move_assign_self (w : world Timer) this :
  Timer_move_assign this this w = w.
Proof.
  unfold Timer_move_assign.
  rewrite !FdHolder_move_assign_self by apply _.
  apply TimerHolder_move_assign_self, _.
Qed.

Lemma Timer_move_assign_dangling (w : world Timer) this rhs :
  objs w !! this = None ∨ objs w !! rhs = None →
  Timer_move_assign this rhs w = w.
Proof.
  intros Hd. unfold Timer_move_assign.
  rewrite (FdHolder_move_assign_dangling base_Timer this rhs w Hd).
  rewrite (FdHolder_move_assign_dangling fld_Notify this rhs w Hd).
  by apply TimerHolder_move_assign_dangling.
Qed.

(** X10. The defaulted moves of [Poller::Timer]. Move construction hands
    all three handles (descriptor, notification channel, timer id) to the
    new timer and leaves the source with none, [ok()] false. Move
    assignment exchanges the two timers whole, so it is symmetric and undoes
    itself, and on one timer it does nothing. Neither makes a system
    call. *)
Theorem Timer_moves_transfer_all_handles :
  (∀ (w : world Timer) this rhs b,
     objs w !! this = None → objs w !! rhs = Some b →
     let w' := Timer_new this rhs w in
     objs w' = <[this := b]> (<[rhs := Timer_default]> (objs w)) ∧
     trace w' = trace w ∧ Timer_ok rhs w' = false) ∧
  (∀ (w : world Timer) this rhs a b,
     this ≠ rhs → objs w !! this = Some a → objs w !! rhs = Some b →
     objs (Timer_move_assign this rhs w) = <[rhs := a]> (<[this := b]> (objs w))) ∧
  (∀ (w : world Timer) this rhs,
     Timer_move_assign this rhs w = Timer_move_assign rhs this w ∧
     Timer_move_assign this rhs (Timer_move_assign this rhs w) = w ∧
     Timer_move_assign this this w = w ∧
     trace (Timer_move_assign this rhs w) = trace w).
Proof.
  assert (∀ (w : world Timer) this rhs,
            Timer_move_assign this rhs w = Timer_move_assign rhs this w)
    as Hsym.
  { intros w this rhs. unfold Timer_move_assign.
    rewrite (FdHolder_move_assign_sym base_Timer this rhs).
    rewrite (FdHolder_move_assign_sym fld_Notify this rhs).
    apply TimerHolder_move_assign_sym, _. }
  assert (∀ (w : world Timer) this rhs,
            Timer_move_assign this rhs (Timer_move_assign this rhs w) = w)
    as Hinvol.
  { intros w this rhs. destruct (decide (this = rhs)) as [->|Hne].
    { by rewrite !Timer_move_assign_self. }
    destruct (objs w !! this) as [a|] eqn:Ha;
      [|by rewrite !(Timer_move_assign_dangling w this rhs) by auto].
    destruct (objs w !! rhs) as [b|] eqn:Hb;
      [|by rewrite !(Timer_move_assign_dangling w this rhs) by auto].
    rewrite (Timer_move_assign_ne _ _ _ _ _ Hne Ha Hb).
    erewrite (Timer_move_assign_ne _ this rhs)
      by (cbn [objs]; store_lookup).
    destruct w as [m tr]. cbn [objs trace] in *. f_equal. store_ext. }
  split; [|split].
  - intros w this rhs b Hthis Hrhs w'. subst w'.
    assert (this ≠ rhs) as Hne by congruence.
    rewrite (Timer_move_ctor_fresh _ _ _ _ Hthis Hrhs). cbn [objs trace].
    repeat split. unfold Timer_ok, FdHolder_ok, load. cbn [objs].
    by rewrite lookup_insert_ne, lookup_insert_eq by done.
  - intros w this rhs a b Hne Ha Hb.
    by rewrite (Timer_move_assign_ne _ _ _ _ _ Hne Ha Hb).
  - intros w this rhs. split; [apply Hsym|]. split; [apply Hinvol|].
    split; [apply Timer_move_assign_self|].
    unfold Timer_move_assign, TimerHolder_move_assign, FdHolder_move_assign,
      upd. done.
Qed.

Lemma Timer_moves_transfer_all_handles_witness :
  objs (Timer_new 3 1 two_Timers) !! 3%positive
    = Some {| Timer_FdHolder := {| Fd := 7 |}; Notify := {| Fd := 8 |};
              TimerId := {| Id := Some 21 |} |} ∧
  objs (Timer_new 3 1 two_Timers) !! 1%positive = Some Timer_default ∧
  Timer_ok 1 (Timer_new 3 1 two_Timers) = false ∧
  objs (Timer_move_assign 1 2 two_Timers) !! 2%positive
    = Some {| Timer_FdHolder := {| Fd := 7 |}; Notify := {| Fd := 8 |};
              TimerId := {| Id := Some 21 |} |}.
Proof.
  destruct Timer_moves_transfer_all_handles as (Hctor & Hassign & _).
  destruct (Hctor two_Timers 3%positive 1%positive
              {| Timer_FdHolder := {| Fd := 7 |}; Notify := {| Fd := 8 |};
                 TimerId := {| Id := Some 21 |} |} eq_refl eq_refl)
    as (Hobjs & _ & Hok).
  pose proof (Hassign two_Timers 1%positive 2%positive
                {| Timer_FdHolder := {| Fd := 7 |}; Notify := {| Fd := 8 |};
                   TimerId := {| Id := Some 21 |} |}
                {| Timer_FdHolder := {| Fd := 9 |}; Notify := FdHolder_default;
                   TimerId := TimerHolder_default |}
                ltac:(lia) eq_refl eq_refl) as Hobjs'.
  rewrite Hobjs, Hobjs'. repeat split; first [exact Hok|reflexivity].
Defined.

(** X11. The defaulted move constructor of [Poller] hands the descriptor,
    the events and the timers to the new poller and makes no system call;
    the moved-from poller is left as a default-constructed one: [Fd == -1]
    ([ok()] false), no events and no timers. *)
Theorem Poller_move_ctor_empties_source :
  ∀ (E : Type) (w : world (Poller E)) this rhs b,
    objs w !! this = None → objs w !! rhs = Some b →
    let w' := Poller_new this rhs w in
    objs w' = <[this := b]> (<[rhs := Poller_default]> (objs w)) ∧
    trace w' = trace w ∧
    Poller_ok rhs w' = false.
Proof.
  intros E w this rhs b Hthis Hrhs w'. subst w'.
  destruct (allocate_other this rhs Poller_default b w Hthis Hrhs)
    as [Hne Hrhs'].
  unfold Poller_new, construct_from, Poller_move_ctor.
  rewrite (FdHolder_move_ctor_ne base_Poller _ _ _ _ _ Hne
             (allocate_this _ _ _) Hrhs').
  unfold upd, vector_move_ctor. cbn [objs trace].
  erewrite (load_Some fld_Events rhs) by store_lookup.
  erewrite (store_Some fld_Events this) by store_lookup.
  erewrite (store_Some fld_Events rhs) by store_lookup.
  erewrite (load_Some fld_Timers rhs) by store_lookup.
  erewrite (store_Some fld_Timers this) by store_lookup.
  erewrite (store_Some fld_Timers rhs) by store_lookup.
  simpl.
  assert (∀ m' : gmap loc (Poller E),
            m' = <[this := b]> (<[rhs := Poller_default]> (objs w)) →
            m' = <[this := b]> (<[rhs := Poller_default]> (objs w)) ∧
            trace w = trace w ∧
            Poller_ok rhs (World m' (trace w)) = false) as Hfin.
  { intros m' ->. repeat split. unfold Poller_ok, FdHolder_ok, load.
    cbn [objs]. by rewrite lookup_insert_ne, lookup_insert_eq by done. }
  apply Hfin. store_ext. by destruct b.
Qed.

Lemma Poller_move_ctor_empties_source_witness :
  objs (Poller_new 2 1 one_Poller) !! 1%positive = Some Poller_default ∧
  load fld_Timers 2 (objs (Poller_new 2 1 one_Poller))
    = Some [ {| Timer_FdHolder := {| Fd := 7 |}; Notify := FdHolder_default;
                TimerId := TimerHolder_default |} ] ∧
  Poller_ok 1 (Poller_new 2 1 one_Poller) = false.
Proof.
  destruct (Poller_move_ctor_empties_source Z one_Poller 2%positive 1%positive
              {| Poller_FdHolder := {| Fd := 6 |}; Events := [42];
                 Timers := [ {| Timer_FdHolder := {| Fd := 7 |};
                                Notify := FdHolder_default;
                                TimerId := TimerHolder_default |} ] |}
              eq_refl eq_refl) as (Hobjs & _ & Hok).
  split; [by rewrite Hobjs|]. split; [by rewrite Hobjs|exact Hok].
Defined.

(** ** INode: exclusive descriptors and streams *)

Lemma FdHolder_move_ctor_self {T} (base : member T FdHolder)
    `{!Lawful base} this (w : world T) :
  FdHolder_move_ctor base this this w = w.
Proof.
  unfold FdHolder_move_ctor, std_exchange.
  destruct (objs w !! this) as [o|] eqn:Ho.
  - rewrite (load_Some _ _ _ _ Ho). cbn [mbind option_bind].
    rewrite (store_Some (base ⋅ fld_Fd) this (-1) (objs w) o Ho).
    erewrite store_Some by apply lookup_insert_eq.
    rewrite insert_insert_eq, put_put, put_get, insert_id by done.
    apply world_eta.
  - by rewrite (load_None _ _ _ Ho).
Qed.

Lemma FdHolder_move_ctor_dangling {T} (base : member T FdHolder)
    this rhs (w : world T) :
  objs w !! rhs = None → FdHolder_move_ctor base this rhs w = w.
Proof.
  intros Hrhs. unfold FdHolder_move_ctor, std_exchange.
  by rewrite (load_None _ _ _ Hrhs).
Qed.

Lemma INode_move_assign_self (w : world INode) a :
  INode_move_assign a a w = w.
Proof.
  unfold INode_move_assign.
  rewrite FdHolder_move_assign_self by apply _.
  unfold upd at 1. rewrite optional_move_self by apply _.
  rewrite world_eta. apply DirHolder_move_assign_self, _.
Qed.

Lemma optional_move_dangling {T A} (f : member T (option A)) this rhs
    (m : gmap loc T) :
  m !! this = None ∨ m !! rhs = None → optional_move f this rhs m = m.
Proof.
  intros Hd. unfold optional_move, load.
  destruct (m !! rhs) as [b|] eqn:Hb; [|done]. cbn.
  destruct Hd as [Hd|Hd]; [|done]. by apply store_None.
Qed.

Lemma INode_move_assign_dangling (w : world INode) this rhs :
  objs w !! this = None ∨ objs w !! rhs = None →
  INode_move_assign this rhs w = w.
Proof.
  intros Hd. unfold INode_move_assign.
  rewrite (FdHolder_move_assign_dangling base_FdHolder this rhs w Hd).
  unfold upd at 1. rewrite optional_move_dangling by done.
  rewrite world_eta. by apply DirHolder_move_assign_dangling.
Qed.

Lemma INode_new_dangling (w : world INode) this rhs :
  objs w !! rhs = None →
  INode_new this rhs w = World (<[this := INode_default]> (objs w)) (trace w).
Proof.
  intros Hrhs. unfold INode_new, construct_from, INode_move_ctor.
  set (w0 := allocate this INode_default w).
  assert (objs w0 !! this = Some INode_default) as Hthis
    by apply allocate_this.
  assert (FdHolder_move_ctor base_FdHolder this rhs w0 = w0) as ->.
  { destruct (decide (rhs = this)) as [->|Hne].
    - apply FdHolder_move_ctor_self, _.
    - apply FdHolder_move_ctor_dangling. unfold w0, allocate, upd.
      cbn [objs]. by rewrite lookup_insert_ne. }
  assert (upd (optional_move fld_Stat this rhs) w0 = w0) as ->.
  { unfold upd. destruct (decide (rhs = this)) as [->|Hne].
    - rewrite optional_move_self by apply _. apply world_eta.
    - rewrite optional_move_dangling; [apply world_eta|]. right.
      unfold w0, allocate, upd. cbn [objs]. by rewrite lookup_insert_ne. }
  assert (upd (store fld_INode_Dir this DirHolder_default) w0 = w0) as Hw0.
  { unfold w0, allocate, upd. cbn [objs trace].
    erewrite store_Some by apply lookup_insert_eq.
    by rewrite insert_insert_eq. }
  change (DirHolder_move_ctor fld_INode_Dir this rhs w0)
    with (DirHolder_move_assign fld_INode_Dir this rhs
            (upd (store fld_INode_Dir this DirHolder_default) w0)).
  rewrite Hw0. destruct (decide (rhs = this)) as [->|Hne].
  - by rewrite DirHolder_move_assign_self by apply _.
  - rewrite DirHolder_move_assign_dangling; [done|]. right.
    unfold w0, allocate, upd. cbn [objs]. by rewrite lookup_insert_ne.
Qed.

Lemma INode_move_exclusive (w : world INode) op :
  exclusive INode_fd valid_fd (objs w) →
  exclusive INode_stream valid_dir (objs w) →
  exclusive INode_fd valid_fd (objs (INode_move w op)) ∧
  exclusive INode_stream valid_dir (objs (INode_move w op)) ∧
  trace (INode_move w op) = trace w.
Proof.
  intros Hfd Hdir. destruct op as [this rhs|rhs]; cbn [INode_move].
  - destruct (decide (this = rhs)) as [->|Hne].
    { by rewrite INode_move_assign_self. }
    destruct (objs w !! this) as [a|] eqn:Ha;
      [|by rewrite INode_move_assign_dangling by auto].
    destruct (objs w !! rhs) as [b|] eqn:Hb;
      [|by rewrite INode_move_assign_dangling by auto].
    rewrite (INode_move_assign_ne _ _ _ _ _ Hne Ha Hb). cbn [objs trace].
    rewrite insert_insert_ne by done.
    split; [|split; [|done]].
    + by apply (exclusive_exchange INode_fd valid_fd _ this rhs a b).
    + by apply (exclusive_exchange INode_stream valid_dir _ this rhs a b).
  - pose proof (fresh_loc_free w) as Hfresh.
    destruct (objs w !! rhs) as [b|] eqn:Hb.
    + rewrite (INode_move_ctor_fresh _ _ _ _ Hfresh Hb). cbn [objs trace].
      split; [|split; [|done]].
      * by apply (exclusive_transfer INode_fd valid_fd _ _ rhs b).
      * by apply (exclusive_transfer INode_stream valid_dir _ _ rhs b).
    + rewrite (INode_new_dangling _ _ _ Hb). cbn [objs trace].
      split; [|split; [|done]]; by apply exclusive_put_invalid.
Qed.

(** X12. Inodes that hold pairwise different descriptors and pairwise
    different directory streams still do so after any series of move
    assignments and move constructions of inodes, between any addresses;
    and the series makes no system call. *)
Theorem INode_moves_keep_handles_exclusive :
  ∀ (ops : list move_op) (w : world INode),
    exclusive INode_fd valid_fd (objs w) →
    exclusive INode_stream valid_dir (objs w) →
    exclusive INode_fd valid_fd (objs (foldl INode_move w ops)) ∧
    exclusive INode_stream valid_dir (objs (foldl INode_move w ops)) ∧
    trace (foldl INode_move w ops) = trace w.
Proof.
  induction ops as [|op ops IH]; intros w Hfd Hdir; [done|]. cbn [foldl].
  destruct (INode_move_exclusive w op Hfd Hdir) as (Hfd' & Hdir' & Htr).
  destruct (IH _ Hfd' Hdir') as (Hfd'' & Hdir'' & Htr').
  split; [done|]. split; [done|congruence].
Qed.

Lemma INode_moves_keep_handles_exclusive_witness :
  exclusive INode_fd valid_fd
    (objs (foldl INode_move two_inodes
             [MoveAssign 1 2; MoveConstruct 2; MoveAssign 3 1])) ∧
  exclusive INode_stream valid_dir
    (objs (foldl INode_move two_inodes
             [MoveAssign 1 2; MoveConstruct 2; MoveAssign 3 1])) ∧
  trace (foldl INode_move two_inodes
           [MoveAssign 1 2; MoveConstruct 2; MoveAssign 3 1]) = [].
Proof.
  apply (INode_moves_keep_handles_exclusive
           [MoveAssign 1 2; MoveConstruct 2; MoveAssign 3 1] two_inodes).
  - unfold exclusive. apply (bool_decide_unpack _). vm_compute. exact I.
  - unfold exclusive. apply (bool_decide_unpack _). vm_compute. exact I.
Defined.

(** ** Moving out and back *)

(** X13. Moving a holder out into a new one and assigning it back,
    [T tmp(std::move(a)); a = std::move(tmp);], leaves [a] exactly as it
    was (a directory holder also with its cookie and its buffer) and the new
    holder empty; no system call is made. *)
Theorem move_out_and_back_restores :
  (∀ (w : world FdHolder) tmp a o,
     objs w !! tmp = None → objs w !! a = Some o →
     FdHolder_move_assign whole a tmp (FdHolder_new tmp a w)
     = World (<[tmp := FdHolder_default]> (objs w)) (trace w)) ∧
  (∀ (w : world DirHolder) tmp a o,
     objs w !! tmp = None → objs w !! a = Some o →
     DirHolder_move_assign whole a tmp (DirHolder_new tmp a w)
     = World (<[tmp := DirHolder_default]> (objs w)) (trace w)) ∧
  (∀ (w : world TimerHolder) tmp a o,
     objs w !! tmp = None → objs w !! a = Some o →
     TimerHolder_move_assign whole a tmp (TimerHolder_new tmp a w)
     = World (<[tmp := TimerHolder_default]> (objs w)) (trace w)).
Proof.
  repeat apply conj; intros w tmp a o Htmp Ha;
    assert (a ≠ tmp) as Hne by congruence.
  - rewrite (FdHolder_new_fresh _ _ _ _ Htmp Ha).
    erewrite (FdHolder_move_assign_ne whole a tmp _ _ _ Hne)
      by (cbn [objs]; store_lookup).
    cbn [objs trace]. f_equal. store_ext.
  - rewrite (DirHolder_new_fresh _ _ _ _ Htmp Ha).
    erewrite (DirHolder_move_assign_ne whole a tmp _ _ _ Hne)
      by (cbn [objs]; store_lookup).
    cbn [objs trace]. f_equal. store_ext. by destruct o.
  - rewrite (TimerHolder_new_fresh _ _ _ _ Htmp Ha).
    erewrite (TimerHolder_move_assign_ne whole a tmp _ _ _ Hne)
      by (cbn [objs]; store_lookup).
    cbn [objs trace]. f_equal. store_ext.
Qed.

Lemma move_out_and_back_restores_witness :
  objs (FdHolder_move_assign whole 2 3 (FdHolder_new 3 2 two_fds))
    !! 2%positive = Some {| Fd := 3 |} ∧
  objs (DirHolder_move_assign whole 2 3 (DirHolder_new 3 2 two_dirs))
    !! 2%positive
    = Some {| Dir := 8192; Cookie := 9; Buffer := [Byte.x02; Byte.x03] |} ∧
  objs (TimerHolder_move_assign whole 2 3 (TimerHolder_new 3 2 two_timers))
    !! 3%positive = Some TimerHolder_default.
Proof.
  destruct move_out_and_back_restores as (Hfd & Hdir & Htimer).
  rewrite (Hfd two_fds 3%positive 2%positive {| Fd := 3 |} eq_refl eq_refl).
  rewrite (Hdir two_dirs 3%positive 2%positive
             {| Dir := 8192; Cookie := 9; Buffer := [Byte.x02; Byte.x03] |}
             eq_refl eq_refl).
  rewrite (Htimer two_timers 3%positive 2%positive {| Id := Some 12 |}
             eq_refl eq_refl).
  repeat split; reflexivity.
Defined.
